(** * Light server and topic discovery: a shallow embedding

    The development embeds parts of two packages of the repository:

    - [les/server.go]: the 40-byte serialisation of the request cost
      statistics ([linReg.toBytes], [linRegFromBytes]) and the CHT builder
      ([makeCht]);
    - [p2p/discover/topic.go] and [p2p/discover/ticket.go]: the server-side
      [TopicTable], the wait control loop, the client-side [ticketStore]
      and [topicRadius].

    Unsigned Go integers are [Z] values with their wrap-around written out,
    Go maps are [gmap]s, objects that the Go code shares through pointers
    live in explicit stores indexed by locations, and a Go panic is the
    [None] result of a partial function. *)

From Stdlib Require Import ZArith Lia List Floats.
From Stdlib Require Strings.Byte.
From stdpp Require Import gmap strings list fin_maps pretty.

Local Open Scope Z_scope.

(** ** Machine integers *)

Definition u64 (z : Z) : Z := z mod 2 ^ 64.
Definition u32 (z : Z) : Z := z mod 2 ^ 32.

(** Go's [int32(x)] of a [uint32] value: two's complement reinterpretation. *)
Definition int32 (z : Z) : Z :=
  let w := u32 z in if w <? 2 ^ 31 then w else w - 2 ^ 32.

Lemma u64_range z : 0 <= u64 z < 2 ^ 64.
Proof. unfold u64. apply Z.mod_pos_bound. lia. Qed.

Lemma u32_range z : 0 <= u32 z < 2 ^ 32.
Proof. unfold u32. apply Z.mod_pos_bound. lia. Qed.

Lemma u64_small z : 0 <= z < 2 ^ 64 -> u64 z = z.
Proof. intros H. unfold u64. apply Z.mod_small. lia. Qed.

Lemma u32_small z : 0 <= z < 2 ^ 32 -> u32 z = z.
Proof. intros H. unfold u32. apply Z.mod_small. lia. Qed.

(** ** Big-endian byte order ([encoding/binary]) *)

Module BigEndian.

Definition byteZ (b : Byte.byte) : Z := Z.of_N (Byte.to_N b).

(** Go's [byte(v)] conversion: the low eight bits. *)
Definition Zbyte (z : Z) : Byte.byte :=
  match Byte.of_N (Z.to_N (z mod 256)) with
  | Some b => b
  | None => Byte.x00
  end.

(** [binary.BigEndian.Uint64(b)]; the Go function panics on a slice
    shorter than eight bytes. *)
Definition Uint64 (b : list Byte.byte) : option Z :=
  match b with
  | b0 :: b1 :: b2 :: b3 :: b4 :: b5 :: b6 :: b7 :: _ =>
      Some (Z.lor (byteZ b7)
           (Z.lor (Z.shiftl (byteZ b6) 8)
           (Z.lor (Z.shiftl (byteZ b5) 16)
           (Z.lor (Z.shiftl (byteZ b4) 24)
           (Z.lor (Z.shiftl (byteZ b3) 32)
           (Z.lor (Z.shiftl (byteZ b2) 40)
           (Z.lor (Z.shiftl (byteZ b1) 48)
                  (Z.shiftl (byteZ b0) 56))))))))
  | _ => None
  end.

(** [binary.BigEndian.PutUint64(b, v)], as the eight bytes written. *)
Definition PutUint64 (v : Z) : list Byte.byte :=
  [ Zbyte (Z.shiftr v 56); Zbyte (Z.shiftr v 48); Zbyte (Z.shiftr v 40);
    Zbyte (Z.shiftr v 32); Zbyte (Z.shiftr v 24); Zbyte (Z.shiftr v 16);
    Zbyte (Z.shiftr v 8); Zbyte v ].

Lemma byteZ_range b : 0 <= byteZ b < 256.
Proof.
  unfold byteZ. pose proof (Byte.to_N_bounded b) as H. lia.
Qed.

Lemma Zbyte_byteZ b : Zbyte (byteZ b) = b.
Proof.
  unfold Zbyte. rewrite Z.mod_small by apply byteZ_range.
  unfold byteZ. rewrite N2Z.id, Byte.of_to_N. reflexivity.
Qed.

Lemma byteZ_Zbyte z : byteZ (Zbyte z) = z mod 256.
Proof.
  unfold Zbyte.
  assert (Hr : 0 <= z mod 256 < 256) by (apply Z.mod_pos_bound; lia).
  destruct (Byte.of_N (Z.to_N (z mod 256))) as [b|] eqn:E.
  - apply Byte.to_of_N in E. unfold byteZ. rewrite E. lia.
  - apply Byte.of_N_None_iff in E. lia.
Qed.

Lemma Zbyte_mod z b : z mod 256 = byteZ b -> Zbyte z = b.
Proof.
  intros H. unfold Zbyte. rewrite H. unfold byteZ.
  rewrite N2Z.id, Byte.of_to_N. reflexivity.
Qed.

(** Bitwise or of a low part and a shifted high part is their sum. *)
Lemma lor_high a c n :
  0 <= n -> 0 <= a < 2 ^ n -> Z.lor a (c * 2 ^ n) = a + c * 2 ^ n.
Proof.
  intros Hn Ha.
  assert (Hland : Z.land a (c * 2 ^ n) = 0).
  { apply Z.bits_inj'. intros i Hi. rewrite Z.land_spec, Z.bits_0.
    destruct (Z_lt_le_dec i n) as [Hlt|Hge].
    - rewrite Z.mul_pow2_bits_low by lia. apply andb_false_r.
    - assert (Hb : Z.testbit a i = false).
      { destruct (Z.eq_dec a 0) as [->|Hz]; [apply Z.bits_0|].
        apply Z.bits_above_log2; [lia|].
        apply Z.lt_le_trans with n; [|lia].
        apply Z.log2_lt_pow2; lia. }
      rewrite Hb. reflexivity. }
  rewrite <- Z.lxor_lor by exact Hland.
  symmetry. apply Z.add_nocarry_lxor. exact Hland.
Qed.

(** The value read by [Uint64] as a sum of weighted bytes. *)
Definition weighted (b0 b1 b2 b3 b4 b5 b6 b7 : Z) : Z :=
  b7 + b6 * 2 ^ 8 + b5 * 2 ^ 16 + b4 * 2 ^ 24 + b3 * 2 ^ 32
  + b2 * 2 ^ 40 + b1 * 2 ^ 48 + b0 * 2 ^ 56.

Lemma Uint64_weighted b0 b1 b2 b3 b4 b5 b6 b7 rest :
  Uint64 (b0 :: b1 :: b2 :: b3 :: b4 :: b5 :: b6 :: b7 :: rest) =
  Some (weighted (byteZ b0) (byteZ b1) (byteZ b2) (byteZ b3)
                 (byteZ b4) (byteZ b5) (byteZ b6) (byteZ b7)).
Proof.
  unfold Uint64, weighted. f_equal.
  pose proof (byteZ_range b0). pose proof (byteZ_range b1).
  pose proof (byteZ_range b2). pose proof (byteZ_range b3).
  pose proof (byteZ_range b4). pose proof (byteZ_range b5).
  pose proof (byteZ_range b6). pose proof (byteZ_range b7).
  rewrite !Z.shiftl_mul_pow2 by lia.
  rewrite (lor_high (byteZ b1 * 2 ^ 48) _ 56) by lia.
  replace (byteZ b1 * 2 ^ 48 + byteZ b0 * 2 ^ 56)
    with ((byteZ b1 + byteZ b0 * 2 ^ 8) * 2 ^ 48) by ring.
  rewrite (lor_high (byteZ b2 * 2 ^ 40) _ 48) by lia.
  replace (byteZ b2 * 2 ^ 40 + (byteZ b1 + byteZ b0 * 2 ^ 8) * 2 ^ 48)
    with ((byteZ b2 + byteZ b1 * 2 ^ 8 + byteZ b0 * 2 ^ 16) * 2 ^ 40)
    by ring.
  rewrite (lor_high (byteZ b3 * 2 ^ 32) _ 40) by lia.
  replace (byteZ b3 * 2 ^ 32
           + (byteZ b2 + byteZ b1 * 2 ^ 8 + byteZ b0 * 2 ^ 16) * 2 ^ 40)
    with ((byteZ b3 + byteZ b2 * 2 ^ 8 + byteZ b1 * 2 ^ 16
           + byteZ b0 * 2 ^ 24) * 2 ^ 32) by ring.
  rewrite (lor_high (byteZ b4 * 2 ^ 24) _ 32) by lia.
  replace (byteZ b4 * 2 ^ 24
           + (byteZ b3 + byteZ b2 * 2 ^ 8 + byteZ b1 * 2 ^ 16
              + byteZ b0 * 2 ^ 24) * 2 ^ 32)
    with ((byteZ b4 + byteZ b3 * 2 ^ 8 + byteZ b2 * 2 ^ 16
           + byteZ b1 * 2 ^ 24 + byteZ b0 * 2 ^ 32) * 2 ^ 24) by ring.
  rewrite (lor_high (byteZ b5 * 2 ^ 16) _ 24) by lia.
  replace (byteZ b5 * 2 ^ 16
           + (byteZ b4 + byteZ b3 * 2 ^ 8 + byteZ b2 * 2 ^ 16
              + byteZ b1 * 2 ^ 24 + byteZ b0 * 2 ^ 32) * 2 ^ 24)
    with ((byteZ b5 + byteZ b4 * 2 ^ 8 + byteZ b3 * 2 ^ 16
           + byteZ b2 * 2 ^ 24 + byteZ b1 * 2 ^ 32 + byteZ b0 * 2 ^ 40)
          * 2 ^ 16) by ring.
  rewrite (lor_high (byteZ b6 * 2 ^ 8) _ 16) by lia.
  replace (byteZ b6 * 2 ^ 8
           + (byteZ b5 + byteZ b4 * 2 ^ 8 + byteZ b3 * 2 ^ 16
              + byteZ b2 * 2 ^ 24 + byteZ b1 * 2 ^ 32 + byteZ b0 * 2 ^ 40)
             * 2 ^ 16)
    with ((byteZ b6 + byteZ b5 * 2 ^ 8 + byteZ b4 * 2 ^ 16
           + byteZ b3 * 2 ^ 24 + byteZ b2 * 2 ^ 32 + byteZ b1 * 2 ^ 40
           + byteZ b0 * 2 ^ 48) * 2 ^ 8) by ring.
  rewrite (lor_high (byteZ b7)) by lia.
  ring.
Qed.

Lemma weighted_range b0 b1 b2 b3 b4 b5 b6 b7 :
  0 <= b0 < 256 -> 0 <= b1 < 256 -> 0 <= b2 < 256 -> 0 <= b3 < 256 ->
  0 <= b4 < 256 -> 0 <= b5 < 256 -> 0 <= b6 < 256 -> 0 <= b7 < 256 ->
  0 <= weighted b0 b1 b2 b3 b4 b5 b6 b7 < 2 ^ 64.
Proof. unfold weighted. lia. Qed.

(** Writing back the value read from eight bytes gives the same bytes. *)
Lemma PutUint64_weighted b0 b1 b2 b3 b4 b5 b6 b7 :
  PutUint64 (weighted (byteZ b0) (byteZ b1) (byteZ b2) (byteZ b3)
                      (byteZ b4) (byteZ b5) (byteZ b6) (byteZ b7)) =
  [b0; b1; b2; b3; b4; b5; b6; b7].
Proof.
  pose proof (byteZ_range b0). pose proof (byteZ_range b1).
  pose proof (byteZ_range b2). pose proof (byteZ_range b3).
  pose proof (byteZ_range b4). pose proof (byteZ_range b5).
  pose proof (byteZ_range b6). pose proof (byteZ_range b7).
  unfold PutUint64, weighted. rewrite !Z.shiftr_div_pow2 by lia.
  repeat f_equal; apply Zbyte_mod;
    change (2 ^ 8) with 256; change (2 ^ 16) with 65536;
    change (2 ^ 24) with 16777216; change (2 ^ 32) with 4294967296;
    change (2 ^ 40) with 1099511627776;
    change (2 ^ 48) with 281474976710656;
    change (2 ^ 56) with 72057594037927936;
    Z.div_mod_to_equations; lia.
Qed.

End BigEndian.

(** ** Request cost statistics: [linReg] serialisation (les/server.go) *)

Module LinReg.

(** [toBytes] and [linRegFromBytes] only move the four sums between the
    record and the blob with [math.Float64bits] / [math.Float64frombits],
    which reinterpret the 64 bits of a [float64] without changing them.
    A [float64] is therefore carried here as its IEEE-754 bit pattern. *)
Record float64 := Float64frombits { Float64bits : Z }.

Record linReg := {
  sumX : float64; sumY : float64; sumXX : float64; sumXY : float64;
  cnt : Z (* uint64 *)
}.

(** Go's [data[lo:hi]]. *)
Definition slice (lo hi : nat) (data : list Byte.byte) : list Byte.byte :=
  firstn (hi - lo) (skipn lo data).

Definition toBytes (l : linReg) : list Byte.byte :=
  BigEndian.PutUint64 (Float64bits (sumX l)) ++
  BigEndian.PutUint64 (Float64bits (sumY l)) ++
  BigEndian.PutUint64 (Float64bits (sumXX l)) ++
  BigEndian.PutUint64 (Float64bits (sumXY l)) ++
  BigEndian.PutUint64 (cnt l).

(** [None] is the Go function's [nil] result. *)
Definition linRegFromBytes (data : list Byte.byte) : option linReg :=
  if negb (Nat.eqb (length data) 40) then None
  else
    x ← BigEndian.Uint64 (slice 0 8 data);
    y ← BigEndian.Uint64 (slice 8 16 data);
    xx ← BigEndian.Uint64 (slice 16 24 data);
    xy ← BigEndian.Uint64 (slice 24 32 data);
    c ← BigEndian.Uint64 (slice 32 40 data);
    Some {| sumX := Float64frombits x; sumY := Float64frombits y;
            sumXX := Float64frombits xx; sumXY := Float64frombits xy;
            cnt := c |}.

Lemma linRegFromBytes_length data l :
  linRegFromBytes data = Some l -> length data = 40%nat.
Proof.
  unfold linRegFromBytes.
  destruct (Nat.eqb (length data) 40) eqn:E; simpl; [|discriminate].
  intros _. apply Nat.eqb_eq. exact E.
Qed.

Lemma toBytes_length l : length (toBytes l) = 40%nat.
Proof. reflexivity. Qed.

(** C9. On every 40-byte input [linRegFromBytes] succeeds and [toBytes]
    of its result is the input again; the blob is the four sums and the
    count, each as a big-endian 64-bit word. *)
Theorem toBytes_fromBytes (data : list Byte.byte) :
  length data = 40%nat ->
  exists l, linRegFromBytes data = Some l /\ toBytes l = data.
Proof.
  intros Hlen.
  do 40 (destruct data as [|? data]; [discriminate Hlen|]).
  destruct data; [|discriminate Hlen].
  unfold linRegFromBytes, slice. cbn [length Nat.eqb negb Nat.sub skipn firstn].
  rewrite !BigEndian.Uint64_weighted. cbn [mbind option_bind].
  eexists. split; [reflexivity|].
  unfold toBytes. cbn [sumX sumY sumXX sumXY cnt Float64bits].
  rewrite !BigEndian.PutUint64_weighted. reflexivity.
Qed.

Definition sample_blob : list Byte.byte :=
  BigEndian.PutUint64 4607182418800017408 ++   (* 1.0 *)
  BigEndian.PutUint64 4611686018427387904 ++   (* 2.0 *)
  BigEndian.PutUint64 9221120237041090561 ++   (* a NaN with a payload *)
  BigEndian.PutUint64 0 ++
  BigEndian.PutUint64 100.

Lemma toBytes_fromBytes_witness :
  exists l, linRegFromBytes sample_blob = Some l /\ toBytes l = sample_blob.
Proof. apply (toBytes_fromBytes sample_blob). reflexivity. Defined.

(** An input of any other length is refused. *)
Lemma linRegFromBytes_short data :
  length data <> 40%nat -> linRegFromBytes data = None.
Proof.
  intros H. unfold linRegFromBytes.
  destruct (Nat.eqb (length data) 40) eqn:E; [|reflexivity].
  apply Nat.eqb_eq in E. contradiction.
Qed.

End LinReg.

(** ** The CHT builder (les/server.go, [makeCht]) *)

Module Cht.

(** A 32-byte [common.Hash] as a number; [common.Hash{}] is [0]. *)
Definition Hash := Z.

(** [light.ChtNode]. *)
Record ChtNode := { Hash_ : Hash; Td : Z }.

(** A trie maps the key [uint64_be(num)], identified with [num], to the
    RLP encoding of a [ChtNode], identified with the node. *)
Definition TrieContent := gmap Z ChtNode.

(** Modelled from the spec: the chain store of package [core]
    ([GetHeadBlockHash], [GetBlockNumber], [GetCanonicalHash], [GetTd]) and
    the node storage of package [trie] are not part of this file. The
    record is the [ethdb.Database] as [makeCht] sees it: the chain
    accessors, the two key families written by this file, and the trie
    nodes, indexed by the root of each committed trie. *)
Record Database := {
  headNum : Z;                      (* GetBlockNumber(GetHeadBlockHash) *)
  canonicalHash : Z -> Hash;        (* GetCanonicalHash, 0 when missing *)
  totalDifficulty : Hash -> Z -> option Z;   (* GetTd, None for nil *)
  lastChtKey : option (list Byte.byte);      (* "LastChtNumber" *)
  chtRoots : gmap Z Hash;           (* "cht" || uint64_be(num) *)
  trieDb : gmap Hash TrieContent
}.

Section Builder.

(** [light.ChtFrequency] is declared in package [light]; it is a
    parameter here, as is the Merkle root of a trie content. *)
Variable ChtFrequency : Z.
Variable rootOf : TrieContent -> Hash.

Definition chtConfirmations : Z := ChtFrequency / 2.

(** [getChtRoot]: a missing key gives [common.BytesToHash(nil)]. *)
Definition getChtRoot (db : Database) (num : Z) : Hash :=
  default 0 (chtRoots db !! num).

Definition storeChtRoot (db : Database) (num : Z) (root : Hash) : Database :=
  {| headNum := headNum db; canonicalHash := canonicalHash db;
     totalDifficulty := totalDifficulty db; lastChtKey := lastChtKey db;
     chtRoots := <[num := root]> (chtRoots db); trieDb := trieDb db |}.

(** Modelled from the spec: [trie.New(root, db)] of package [trie], which
    returns a trie or an error. The empty root opens the empty trie, any
    other root must be present in the database. *)
Definition trie_New (root : Hash) (db : Database) : option TrieContent :=
  if root =? 0 then Some ∅ else trieDb db !! root.

(** One iteration of the loop of [makeCht]; [None] is a panic. *)
Definition chtInsert (db : Database) (t : TrieContent) (num : Z)
  : option TrieContent :=
  let hash := canonicalHash db num in
  if hash =? 0 then None
  else match totalDifficulty db hash num with
       | None => None
       | Some td => Some (<[num := {| Hash_ := hash; Td := td |}]> t)
       end.

Fixpoint chtLoop (db : Database) (t : TrieContent) (num : Z) (n : nat)
  : option TrieContent :=
  match n with
  | O => Some t
  | S n' => t' ← chtInsert db t num; chtLoop db t' (num + 1) n'
  end.

(** [for num := lo; num < hi; num++], on [uint64] bounds. *)
Definition chtRange (db : Database) (t : TrieContent) (lo hi : Z)
  : option TrieContent :=
  chtLoop db t lo (Z.to_nat (hi - lo)).

Definition readLastChtNum (db : Database) : Z :=
  match lastChtKey db with
  | Some data =>
      if Nat.eqb (length data) 8 then default 0 (BigEndian.Uint64 data)
      else 0
  | None => 0
  end.

(** The index of the newest CHT that the chain head allows. *)
Definition newChtNumOf (db : Database) : Z :=
  if chtConfirmations <? headNum db
  then u64 (headNum db - chtConfirmations) / ChtFrequency else 0.

(** [makeCht]. [commitErr] tells whether [t.Commit()] reports an error.
    The result is the new database and the returned flag; [None] is a
    panic. *)
Definition makeCht (commitErr : bool) (db : Database)
  : option (Database * bool) :=
  let newChtNum := newChtNumOf db in
  let lastChtNum := readLastChtNum db in
  if newChtNum <=? lastChtNum then Some (db, false)
  else
    let opened :=
      if 0 <? lastChtNum
      then match trie_New (getChtRoot db lastChtNum) db with
           | Some t => (t, lastChtNum)
           | None => (∅, 0)
           end
      else (∅, lastChtNum) in
    let lastChtNum := opened.2 in
    let t := if lastChtNum =? 0 then ∅ else opened.1 in
    t' ← chtRange db t (u64 (lastChtNum * ChtFrequency))
                       (u64 ((lastChtNum + 1) * ChtFrequency));
    if commitErr then Some (db, 0 <? newChtNum)
    else
      let root := rootOf t' in
      let lastChtNum := u64 (lastChtNum + 1) in
      let db1 :=
        {| headNum := headNum db; canonicalHash := canonicalHash db;
           totalDifficulty := totalDifficulty db;
           lastChtKey := lastChtKey db; chtRoots := chtRoots db;
           trieDb := <[root := t']> (trieDb db) |} in
      let db2 := storeChtRoot db1 lastChtNum root in
      let db3 :=
        {| headNum := headNum db2; canonicalHash := canonicalHash db2;
           totalDifficulty := totalDifficulty db2;
           lastChtKey := Some (BigEndian.PutUint64 lastChtNum);
           chtRoots := chtRoots db2; trieDb := trieDb db2 |} in
      Some (db3, lastChtNum <? newChtNum).

(** *** Facts about the builder *)

Lemma readLastChtNum_range db : 0 <= readLastChtNum db < 2 ^ 64.
Proof.
  unfold readLastChtNum. destruct (lastChtKey db) as [data|]; [|lia].
  destruct (Nat.eqb (length data) 8) eqn:E; [|lia].
  apply Nat.eqb_eq in E.
  do 8 (destruct data as [|? data]; [discriminate E|]).
  rewrite BigEndian.Uint64_weighted. cbn [default].
  apply BigEndian.weighted_range; apply BigEndian.byteZ_range.
Qed.

Lemma chtLoop_outside db n : forall t lo t' m,
  chtLoop db t lo n = Some t' ->
  m < lo \/ lo + Z.of_nat n <= m ->
  t' !! m = t !! m.
Proof.
  induction n as [|n IH]; intros t lo t' m Hrun Hm.
  - cbn in Hrun. injection Hrun as <-. reflexivity.
  - cbn [chtLoop] in Hrun.
    destruct (chtInsert db t lo) as [t1|] eqn:Hins; [|discriminate].
    cbn [mbind option_bind] in Hrun.
    rewrite (IH t1 (lo + 1) t' m Hrun) by lia.
    unfold chtInsert in Hins.
    destruct (canonicalHash db lo =? 0); [discriminate|].
    destruct (totalDifficulty db (canonicalHash db lo) lo); [|discriminate].
    injection Hins as <-. apply lookup_insert_ne. lia.
Qed.

Lemma chtLoop_inside db n : forall t lo t' m,
  chtLoop db t lo n = Some t' ->
  lo <= m < lo + Z.of_nat n ->
  exists td, canonicalHash db m <> 0 /\
             totalDifficulty db (canonicalHash db m) m = Some td /\
             t' !! m = Some {| Hash_ := canonicalHash db m; Td := td |}.
Proof.
  induction n as [|n IH]; intros t lo t' m Hrun Hm; [lia|].
  cbn [chtLoop] in Hrun.
  destruct (chtInsert db t lo) as [t1|] eqn:Hins; [|discriminate].
  cbn [mbind option_bind] in Hrun.
  destruct (Z.eq_dec m lo) as [->|Hne].
  - unfold chtInsert in Hins.
    destruct (canonicalHash db lo =? 0) eqn:Hz; [discriminate|].
    destruct (totalDifficulty db (canonicalHash db lo) lo) as [td|] eqn:Htd;
      [|discriminate].
    injection Hins as <-. exists td. split; [apply Z.eqb_neq, Hz|].
    split; [reflexivity|].
    rewrite (chtLoop_outside db n _ (lo + 1) t' lo Hrun) by lia.
    apply lookup_insert_eq.
  - apply (IH t1 (lo + 1) t' m Hrun). lia.
Qed.

(** What one successful build writes, for the index [k] it completes. *)
Definition built (db db' : Database) (k : Z) (seed t' : TrieContent) : Prop :=
  lastChtKey db' = Some (BigEndian.PutUint64 k) /\
  chtRoots db' !! k = Some (rootOf t') /\
  trieDb db' !! rootOf t' = Some t' /\
  (forall n, (k - 1) * ChtFrequency <= n < k * ChtFrequency ->
     exists td, canonicalHash db n <> 0 /\
                totalDifficulty db (canonicalHash db n) n = Some td /\
                t' !! n = Some {| Hash_ := canonicalHash db n; Td := td |}) /\
  (forall n, n < (k - 1) * ChtFrequency \/ k * ChtFrequency <= n ->
     t' !! n = seed !! n).

Lemma newChtNumOf_head db k :
  0 < ChtFrequency -> 0 <= headNum db < 2 ^ 64 ->
  0 <= k -> k < newChtNumOf db ->
  (k + 1) * ChtFrequency + ChtFrequency / 2 <= headNum db.
Proof.
  intros HF Hh Hk Hlt. unfold newChtNumOf, chtConfirmations in Hlt.
  assert (Hc : 0 <= ChtFrequency / 2) by (apply Z.div_pos; lia).
  destruct (ChtFrequency / 2 <? headNum db) eqn:E; [|lia].
  apply Z.ltb_lt in E.
  rewrite u64_small in Hlt by lia.
  assert (Hd : (k + 1) * ChtFrequency <= headNum db - ChtFrequency / 2).
  { assert (k + 1 <= (headNum db - ChtFrequency / 2) / ChtFrequency) by lia.
    pose proof (Z.mul_div_le (headNum db - ChtFrequency / 2) ChtFrequency HF).
    nia. }
  lia.
Qed.

Lemma newChtNumOf_below db k :
  0 < ChtFrequency -> 0 <= headNum db < 2 ^ 64 ->
  0 <= k -> newChtNumOf db <= k ->
  headNum db < (k + 1) * ChtFrequency + ChtFrequency / 2.
Proof.
  intros HF Hh Hk Hle. unfold newChtNumOf, chtConfirmations in Hle.
  assert (Hc : 0 <= ChtFrequency / 2) by (apply Z.div_pos; lia).
  destruct (ChtFrequency / 2 <? headNum db) eqn:E;
    [apply Z.ltb_lt in E|apply Z.ltb_ge in E; nia].
  rewrite u64_small in Hle by lia.
  assert (Hd : headNum db - ChtFrequency / 2 < (k + 1) * ChtFrequency).
  { pose proof (Z.div_mod (headNum db - ChtFrequency / 2) ChtFrequency
                  ltac:(lia)) as Hdm.
    pose proof (Z.mod_pos_bound (headNum db - ChtFrequency / 2) ChtFrequency
                  HF) as Hm.
    nia. }
  lia.
Qed.

(** What [makeCht] opens before it builds: the index [l] of the last
    completed CHT with its trie, or the index 0 with the empty trie when no
    CHT has been completed or the trie of the last one cannot be opened. *)
Definition opened (db : Database) (l : Z) (seed : TrieContent) : Prop :=
  (readLastChtNum db = 0 /\ l = 0 /\ seed = ∅) \/
  (0 < readLastChtNum db /\
   trie_New (getChtRoot db (readLastChtNum db)) db = Some seed /\
   l = readLastChtNum db) \/
  (0 < readLastChtNum db /\
   trie_New (getChtRoot db (readLastChtNum db)) db = None /\
   l = 0 /\ seed = ∅).

(** The two ways in which a call of [makeCht] returns. *)
Definition chtBuilt (db db' : Database) (more : bool) : Prop :=
  (headNum db < (readLastChtNum db + 1) * ChtFrequency + ChtFrequency / 2 /\
   db' = db /\ more = false) \/
  ((readLastChtNum db + 1) * ChtFrequency + ChtFrequency / 2 <= headNum db /\
   exists l seed t',
     opened db l seed /\ built db db' (l + 1) seed t' /\
     more = (l + 1 <? newChtNumOf db)).

(** C1 (as the code has it). With [last] the index of the last completed
    CHT, [makeCht] builds nothing and writes nothing while the chain head
    is below [(last+1)*F + F/2]. From there on it completes the index
    [k = last + 1], or [k = 1] when the trie of CHT [last] cannot be
    opened. The root stored under [k] is the root of the trie obtained
    from the trie of CHT [k-1] (the empty trie for [k = 1]) by inserting
    one entry per block number of [[(k-1)*F, k*F)], key the number and
    value the canonical hash and total difficulty. *)
Theorem makeCht_builds (db db' : Database) (more : bool) :
  0 < ChtFrequency < 2 ^ 64 ->
  0 <= headNum db < 2 ^ 64 ->
  makeCht false db = Some (db', more) ->
  chtBuilt db db' more.
Proof.
  intros HF Hh Hrun. unfold chtBuilt.
  pose proof (readLastChtNum_range db) as Hlast.
  assert (Hc : 0 <= ChtFrequency / 2) by (apply Z.div_pos; lia).
  unfold makeCht in Hrun.
  destruct (newChtNumOf db <=? readLastChtNum db) eqn:E.
  { apply Z.leb_le in E. injection Hrun as <- <-. left.
    split; [|auto]. apply newChtNumOf_below; lia. }
  apply Z.leb_gt in E.
  pose proof (newChtNumOf_head db (readLastChtNum db) ltac:(lia) Hh
                ltac:(lia) E) as Hhead.
  right. split; [exact Hhead|].
  set (op := if 0 <? readLastChtNum db then _ else _) in Hrun.
  assert (Hop : opened db op.2 (if op.2 =? 0 then ∅ else op.1)).
  { subst op. unfold opened. destruct (0 <? readLastChtNum db) eqn:E0.
    - apply Z.ltb_lt in E0.
      destruct (trie_New (getChtRoot db (readLastChtNum db)) db) as [t|] eqn:Ht.
      + right. left. cbn [fst snd].
        destruct (readLastChtNum db =? 0) eqn:Ez;
          [apply Z.eqb_eq in Ez; lia|]. auto.
      + right. right. cbn. auto.
    - apply Z.ltb_ge in E0. left. cbn [fst snd].
      assert (Hz : readLastChtNum db = 0) by lia.
      rewrite Hz. cbn. auto. }
  assert (Hl2 : 0 <= op.2 <= readLastChtNum db).
  { destruct Hop as [(? & -> & _)|[(? & _ & ->)|(? & _ & -> & _)]]; lia. }
  revert Hrun. generalize dependent op. intros op Hop Hl2.
  set (l := op.2) in *.
  assert (HlF : 0 <= l * ChtFrequency /\ (l + 1) * ChtFrequency < 2 ^ 64) by nia.
  rewrite (u64_small (l * ChtFrequency)) by nia.
  rewrite (u64_small ((l + 1) * ChtFrequency)) by lia.
  rewrite (u64_small (l + 1)) by nia.
  unfold chtRange.
  destruct (chtLoop db _ (l * ChtFrequency) _) as [t'|] eqn:Hloop;
    [|discriminate].
  cbn [mbind option_bind]. intros Hrun. injection Hrun as <- <-.
  replace (Z.to_nat ((l + 1) * ChtFrequency - l * ChtFrequency))
    with (Z.to_nat ChtFrequency) in Hloop by (f_equal; ring).
  exists l, (if l =? 0 then ∅ else op.1), t'.
  split; [exact Hop|]. split; [|reflexivity].
  unfold built, storeChtRoot. cbn.
  split; [reflexivity|].
  split; [apply lookup_insert_eq|].
  split; [apply lookup_insert_eq|].
  replace (l + 1 - 1) with l by ring.
  split; intros n Hn.
  - apply (chtLoop_inside db _ _ _ _ n Hloop). lia.
  - apply (chtLoop_outside db _ _ _ _ n Hloop). lia.
Qed.

End Builder.

(** *** A small chain: frequency 4, head at block 6, empty CHT state *)

Definition rootOf0 (t : TrieContent) : Hash :=
  map_fold (fun k v acc => acc + k + Hash_ v + Td v + 1) 1 t.

Definition db0 : Database :=
  {| headNum := 6;
     canonicalHash := fun n => n + 100;
     totalDifficulty := fun _ n => Some (2 * n);
     lastChtKey := None; chtRoots := ∅; trieDb := ∅ |}.

(** The trie whose root is stored under CHT index [k], if any. *)
Definition trieAt (db : Database) (k : Z) : option TrieContent :=
  r ← chtRoots db !! k; trieDb db !! r.

Definition node0 (n : Z) : ChtNode := {| Hash_ := n + 100; Td := 2 * n |}.

(** The same chain with its head at block 10, and the database after
    [makeCht] has run on it once and twice. *)
Definition db10 : Database :=
  {| headNum := 10;
     canonicalHash := fun n => n + 100;
     totalDifficulty := fun _ n => Some (2 * n);
     lastChtKey := None; chtRoots := ∅; trieDb := ∅ |}.

Definition afterMakeCht (db : Database) : Database :=
  match makeCht 4 rootOf0 false db with
  | Some (db', _) => db'
  | None => db
  end.

Definition db10_1 : Database := afterMakeCht db10.
Definition db10_2 : Database := afterMakeCht db10_1.

(** The second run opens the trie of CHT 1 and completes CHT 2. *)
Lemma makeCht_builds_witness : chtBuilt 4 rootOf0 db10_1 db10_2 false.
Proof.
  apply (makeCht_builds 4 rootOf0 db10_1 db10_2 false);
    [lia | vm_compute; split; [discriminate | reflexivity]
    | vm_compute; reflexivity].
Defined.

(** On this chain the first run completes CHT 1 and asks for another run;
    the trie of CHT 2 holds the blocks 0 to 7. *)
Lemma makeCht_twice :
  snd <$> makeCht 4 rootOf0 false db10 = Some true /\
  readLastChtNum db10_1 = 1 /\ readLastChtNum db10_2 = 2 /\
  trieAt db10_2 2
  = Some (list_to_map [(0, node0 0); (1, node0 1); (2, node0 2); (3, node0 3);
                       (4, node0 4); (5, node0 5); (6, node0 6); (7, node0 7)]).
Proof. vm_compute. repeat split; reflexivity. Qed.

(** C1, as stated, fails on this chain: with the head at block 6 the
    builder completes CHT 1, below the claimed threshold
    [(1+1)*4 + 4/2 = 10], and the trie stored under index 1 holds the
    blocks 0..3, not the blocks 4..7. *)
Lemma makeCht_index_range_counterexample :
  (db' ← fst <$> makeCht 4 rootOf0 false db0; trieAt db' 1) =
    Some (list_to_map [(0, node0 0); (1, node0 1); (2, node0 2); (3, node0 3)])
  /\ (db' ← fst <$> makeCht 4 rootOf0 false db0; t ← trieAt db' 1;
      Some (t !! 0, t !! 4)) = Some (Some (node0 0), None)
  /\ headNum db0 < (1 + 1) * 4 + 4 / 2
  /\ ~ (forall db' t', fst <$> makeCht 4 rootOf0 false db0 = Some db' ->
         trieAt db' 1 = Some t' ->
         (forall n, 1 * 4 <= n < (1 + 1) * 4 -> is_Some (t' !! n)) /\
         (1 + 1) * 4 + 4 / 2 <= headNum db0).
Proof.
  split; [vm_compute; reflexivity|]. split; [vm_compute; reflexivity|].
  split; [vm_compute; reflexivity|].
  intros H.
  destruct (H _ _ eq_refl eq_refl) as [_ Hhead].
  vm_compute in Hhead. apply Hhead. reflexivity.
Qed.

End Cht.

(** ** float64 values and their conversions *)

Module F64.

(** Go's [float64(x)] of an unsigned integer: the nearest binary64 value,
    ties to even. *)
Definition of_uint (z : Z) : float :=
  SF2Prim (binary_normalize prec emax z 0 false).

(** Go's [uint64(f)] and [uint32(f)]: truncation toward zero. Outside the
    range of the target type the Go specification leaves the result to the
    implementation; [indef] stands for it. *)
Definition trunc (f : float) : option Z :=
  match Prim2SF f with
  | S754_zero _ => Some 0
  | S754_finite s m e =>
      let v := if 0 <=? e then Z.pos m * 2 ^ e else Z.pos m / 2 ^ (- e) in
      Some (if s then - v else v)
  | _ => None
  end.

Definition indef : Z := 2 ^ 63.

Definition to_uint64 (f : float) : Z :=
  match trunc f with
  | Some v => if (0 <=? v) && (v <? 2 ^ 64) then v else indef
  | None => indef
  end.

End F64.

(** ** The topic table (p2p/discover/topic.go) *)

Module Topics.

Definition MaxEntries : Z := 10000.
Definition MaxEntriesPerTopic : Z := 50.

Definition second : Z := 1000000000.
Definition minute : Z := 60 * second.

Definition gcInterval : Z := minute.
Definition minWaitPeriod : Z := minute.
Definition regTimeWindow : Z := 10.
Definition avgNoTicketTimeout : Z := minute * 10.
Definition wcTargetRegInterval : Z := minute * 10 / MaxEntriesPerTopic.
Definition wcTimeConst : Z := minute * 10.

Definition Topic := string.

(** Modelled from the spec: [Node] is declared elsewhere in the package.
    Nodes are compared and used as map keys by pointer, and the node
    database is keyed by [node.ID]; both are this identifier. *)
Definition Node := positive.

(** Locations of the objects the table shares through pointers. *)
Definition loc := positive.

Record topicEntry := {
  topic : Topic;
  fifoIdx : Z;
  node : Node;
  expire : Z
}.

Record waitControlLoop := { lastIncoming : Z; waitPeriod : Z }.

Record topicRequestQueueItem := {
  rq_topic : Topic;
  priority : Z;
  index : Z
}.

Record topicInfo := {
  entries : gmap Z topicEntry;
  fifoHead : Z;
  fifoTail : Z;
  rqItem : loc;
  wcl : waitControlLoop
}.

Record nodeInfo := {
  n_entries : gmap Topic topicEntry;
  noTicketUntil : Z;
  lastIssuedTicket : Z;
  lastUsedTicket : Z
}.

(** Updates of one field of a node record. *)
Definition withLastUsed (n : nodeInfo) (serialNo : Z) : nodeInfo :=
  {| n_entries := n_entries n; noTicketUntil := noTicketUntil n;
     lastIssuedTicket := lastIssuedTicket n; lastUsedTicket := serialNo |}.

Definition withLastIssued (n : nodeInfo) (issued : Z) : nodeInfo :=
  {| n_entries := n_entries n; noTicketUntil := noTicketUntil n;
     lastIssuedTicket := issued; lastUsedTicket := lastUsedTicket n |}.

Definition withNoTicketUntil (n : nodeInfo) (until : Z) : nodeInfo :=
  {| n_entries := n_entries n; noTicketUntil := until;
     lastIssuedTicket := lastIssuedTicket n;
     lastUsedTicket := lastUsedTicket n |}.

(** The table itself, followed by the stores of the objects it points to.
    Modelled from the spec: [db] stands for the node database adapter
    behind [fetchTopicRegTickets] and [updateTopicRegTickets], a map from
    the node to the pair (issued, used); a node without a record has the
    pair (0, 0). *)
Record TopicTable := {
  db : gmap Node (Z * Z);
  nodes : gmap Node loc;
  topics : gmap Topic loc;
  globalEntries : Z;
  requested : list loc;
  requestCnt : Z;
  lastGarbageCollection : Z;
  nodeObjs : gmap loc nodeInfo;
  topicObjs : gmap loc topicInfo;
  rqObjs : gmap loc topicRequestQueueItem;
  nextLoc : loc
}.

Definition NewTopicTable (d : gmap Node (Z * Z)) : TopicTable :=
  {| db := d; nodes := ∅; topics := ∅; globalEntries := 0; requested := [];
     requestCnt := 0; lastGarbageCollection := 0;
     nodeObjs := ∅; topicObjs := ∅; rqObjs := ∅; nextLoc := 1%positive |}.

(** Field updates. *)
Definition set_db v (t : TopicTable) : TopicTable :=
  {| db := v; nodes := nodes t; topics := topics t;
     globalEntries := globalEntries t; requested := requested t;
     requestCnt := requestCnt t;
     lastGarbageCollection := lastGarbageCollection t;
     nodeObjs := nodeObjs t; topicObjs := topicObjs t; rqObjs := rqObjs t;
     nextLoc := nextLoc t |}.
Definition set_nodes v (t : TopicTable) : TopicTable :=
  {| db := db t; nodes := v; topics := topics t;
     globalEntries := globalEntries t; requested := requested t;
     requestCnt := requestCnt t;
     lastGarbageCollection := lastGarbageCollection t;
     nodeObjs := nodeObjs t; topicObjs := topicObjs t; rqObjs := rqObjs t;
     nextLoc := nextLoc t |}.
Definition set_topics v (t : TopicTable) : TopicTable :=
  {| db := db t; nodes := nodes t; topics := v;
     globalEntries := globalEntries t; requested := requested t;
     requestCnt := requestCnt t;
     lastGarbageCollection := lastGarbageCollection t;
     nodeObjs := nodeObjs t; topicObjs := topicObjs t; rqObjs := rqObjs t;
     nextLoc := nextLoc t |}.
Definition set_globalEntries v (t : TopicTable) : TopicTable :=
  {| db := db t; nodes := nodes t; topics := topics t;
     globalEntries := v; requested := requested t;
     requestCnt := requestCnt t;
     lastGarbageCollection := lastGarbageCollection t;
     nodeObjs := nodeObjs t; topicObjs := topicObjs t; rqObjs := rqObjs t;
     nextLoc := nextLoc t |}.
Definition set_requested v (t : TopicTable) : TopicTable :=
  {| db := db t; nodes := nodes t; topics := topics t;
     globalEntries := globalEntries t; requested := v;
     requestCnt := requestCnt t;
     lastGarbageCollection := lastGarbageCollection t;
     nodeObjs := nodeObjs t; topicObjs := topicObjs t; rqObjs := rqObjs t;
     nextLoc := nextLoc t |}.
Definition set_requestCnt v (t : TopicTable) : TopicTable :=
  {| db := db t; nodes := nodes t; topics := topics t;
     globalEntries := globalEntries t; requested := requested t;
     requestCnt := v;
     lastGarbageCollection := lastGarbageCollection t;
     nodeObjs := nodeObjs t; topicObjs := topicObjs t; rqObjs := rqObjs t;
     nextLoc := nextLoc t |}.
Definition set_lastGarbageCollection v (t : TopicTable) : TopicTable :=
  {| db := db t; nodes := nodes t; topics := topics t;
     globalEntries := globalEntries t; requested := requested t;
     requestCnt := requestCnt t;
     lastGarbageCollection := v;
     nodeObjs := nodeObjs t; topicObjs := topicObjs t; rqObjs := rqObjs t;
     nextLoc := nextLoc t |}.
Definition set_nodeObjs v (t : TopicTable) : TopicTable :=
  {| db := db t; nodes := nodes t; topics := topics t;
     globalEntries := globalEntries t; requested := requested t;
     requestCnt := requestCnt t;
     lastGarbageCollection := lastGarbageCollection t;
     nodeObjs := v; topicObjs := topicObjs t; rqObjs := rqObjs t;
     nextLoc := nextLoc t |}.
Definition set_topicObjs v (t : TopicTable) : TopicTable :=
  {| db := db t; nodes := nodes t; topics := topics t;
     globalEntries := globalEntries t; requested := requested t;
     requestCnt := requestCnt t;
     lastGarbageCollection := lastGarbageCollection t;
     nodeObjs := nodeObjs t; topicObjs := v; rqObjs := rqObjs t;
     nextLoc := nextLoc t |}.
Definition set_rqObjs v (t : TopicTable) : TopicTable :=
  {| db := db t; nodes := nodes t; topics := topics t;
     globalEntries := globalEntries t; requested := requested t;
     requestCnt := requestCnt t;
     lastGarbageCollection := lastGarbageCollection t;
     nodeObjs := nodeObjs t; topicObjs := topicObjs t; rqObjs := v;
     nextLoc := nextLoc t |}.
Definition set_nextLoc v (t : TopicTable) : TopicTable :=
  {| db := db t; nodes := nodes t; topics := topics t;
     globalEntries := globalEntries t; requested := requested t;
     requestCnt := requestCnt t;
     lastGarbageCollection := lastGarbageCollection t;
     nodeObjs := nodeObjs t; topicObjs := topicObjs t; rqObjs := rqObjs t;
     nextLoc := v |}.

(** Allocation of a fresh location. *)
Definition alloc (t : TopicTable) : loc * TopicTable :=
  (nextLoc t, set_nextLoc (Pos.succ (nextLoc t)) t).

(** Writes through a pointer. *)
Definition putNode (l : loc) (n : nodeInfo) (t : TopicTable) : TopicTable :=
  set_nodeObjs (<[l := n]> (nodeObjs t)) t.
Definition putTopic (l : loc) (ti : topicInfo) (t : TopicTable) : TopicTable :=
  set_topicObjs (<[l := ti]> (topicObjs t)) t.
Definition putItem (l : loc) (it : topicRequestQueueItem) (t : TopicTable)
  : TopicTable :=
  set_rqObjs (<[l := it]> (rqObjs t)) t.

Section Table.

(** [math.Exp] belongs to the Go library; it is a parameter of the model. *)
Variable math_Exp : float -> float.

(** *** The wait control loop *)

Definition nextWaitPeriod (w : waitControlLoop) (tm : Z) : Z :=
  let period := u64 (tm - lastIncoming w) in
  let wp :=
    F64.to_uint64
      (F64.of_uint (waitPeriod w)
       * math_Exp ((F64.of_uint wcTargetRegInterval - F64.of_uint period)
                   / F64.of_uint wcTimeConst))%float in
  if wp <? minWaitPeriod then minWaitPeriod else wp.

Definition registered (w : waitControlLoop) (tm : Z) : waitControlLoop :=
  {| waitPeriod := nextWaitPeriod w tm; lastIncoming := tm |}.

Definition hasMinimumWaitPeriod (w : waitControlLoop) (now : Z) : bool :=
  nextWaitPeriod w now =? minWaitPeriod.

(** [noTicketTimeout]; [e] is the value drawn by [rand.ExpFloat64()]. *)
Definition noTicketTimeout (e : float) : Z :=
  let e := if PrimFloat.ltb 100 e then 100%float else e in
  F64.to_uint64 (F64.of_uint avgNoTicketTimeout * e)%float.

(** *** The request queue, a heap

    [Len], [Less], [Swap], [Push] and [Pop] are the methods of
    [topicRequestQueue]; [heap_up], [heap_down], [heap_Push], [heap_Pop],
    [heap_Remove] and [heap_Fix] are the functions of Go's [container/heap]
    over them. Indices are Go [int]s; an index outside the slice is a
    panic. *)

Definition tq_at (t : TopicTable) (i : Z) : option loc :=
  if i <? 0 then None else requested t !! Z.to_nat i.

Definition tq_Len (t : TopicTable) : Z := Z.of_nat (length (requested t)).

Definition tq_Less (t : TopicTable) (i j : Z) : option bool :=
  li ← tq_at t i; lj ← tq_at t j;
  a ← rqObjs t !! li; b ← rqObjs t !! lj;
  Some (priority a <? priority b).

Definition setIndex (l : loc) (i : Z) (t : TopicTable) : option TopicTable :=
  it ← rqObjs t !! l;
  Some (putItem l {| rq_topic := rq_topic it; priority := priority it;
                     index := i |} t).

Definition tq_Swap (t : TopicTable) (i j : Z) : option TopicTable :=
  li ← tq_at t i; lj ← tq_at t j;
  let t1 := set_requested
              (<[Z.to_nat j := li]> (<[Z.to_nat i := lj]> (requested t))) t in
  t2 ← setIndex lj i t1;
  li' ← tq_at t2 j;
  setIndex li' j t2.

(** [Push] of the queue: append and record the position. *)
Definition tq_Push (l : loc) (t : TopicTable) : option TopicTable :=
  t1 ← setIndex l (tq_Len t) t;
  Some (set_requested (requested t1 ++ [l]) t1).

(** [Pop] of the queue: drop the last item, whose index becomes [-1]. *)
Definition tq_Pop (t : TopicTable) : option (loc * TopicTable) :=
  let n := tq_Len t in
  l ← tq_at t (n - 1);
  t1 ← setIndex l (-1) t;
  Some (l, set_requested (take (Z.to_nat (n - 1)) (requested t1)) t1).

Fixpoint heap_up (fuel : nat) (j : Z) (t : TopicTable) : option TopicTable :=
  match fuel with
  | O => None
  | S fuel' =>
      let i := Z.quot (j - 1) 2 in
      if i =? j then Some t
      else
        less ← tq_Less t j i;
        if negb less then Some t
        else t1 ← tq_Swap t i j; heap_up fuel' i t1
  end.

Fixpoint heap_down (fuel : nat) (i n : Z) (t : TopicTable)
  : option TopicTable :=
  match fuel with
  | O => None
  | S fuel' =>
      let j1 := 2 * i + 1 in
      if (n <=? j1) || (j1 <? 0) then Some t
      else
        let j2 := j1 + 1 in
        j ← (if j2 <? n
             then less ← tq_Less t j1 j2; Some (if negb less then j2 else j1)
             else Some j1);
        less ← tq_Less t j i;
        if negb less then Some t
        else t1 ← tq_Swap t i j; heap_down fuel' j n t1
  end.

(** Each loop of [up] decreases its index and each loop of [down]
    increases it below the length, so this many rounds are enough. *)
Definition heapFuel (t : TopicTable) : nat := S (length (requested t)).

Definition heap_Push (l : loc) (t : TopicTable) : option TopicTable :=
  t1 ← tq_Push l t;
  heap_up (heapFuel t1) (tq_Len t1 - 1) t1.

Definition heap_Pop (t : TopicTable) : option (loc * TopicTable) :=
  let n := tq_Len t - 1 in
  t1 ← tq_Swap t 0 n;
  t2 ← heap_down (heapFuel t1) 0 n t1;
  tq_Pop t2.

Definition heap_Remove (i : Z) (t : TopicTable) : option (loc * TopicTable) :=
  let n := tq_Len t - 1 in
  t1 ← (if n =? i then Some t
        else t1 ← tq_Swap t i n;
             t2 ← heap_down (heapFuel t1) i n t1;
             heap_up (heapFuel t2) i t2);
  tq_Pop t1.

Definition heap_Fix (i : Z) (t : TopicTable) : option TopicTable :=
  t1 ← heap_down (heapFuel t) i (tq_Len t) t;
  heap_up (heapFuel t1) i t1.

(** [topicRequestQueue.update]. *)
Definition tq_update (l : loc) (p : Z) (t : TopicTable) : option TopicTable :=
  it ← rqObjs t !! l;
  let t1 := putItem l {| rq_topic := rq_topic it; priority := p;
                         index := index it |} t in
  heap_Fix (index it) t1.

(** *** Table operations

    Every operation takes the reading [now] of [atime.NanoTime()]; the
    clock does not advance while one call runs. [None] is a panic (a nil
    pointer dereference or an index out of range), or, in [getFifoTail], a
    loop that never ends. Go leaves the order of a [range] over a map
    open; the model visits the keys in the order of [map_to_list]. *)

Definition getOrNewTopic (tp : Topic) (t : TopicTable)
  : option (loc * TopicTable) :=
  match topics t !! tp with
  | Some l => Some (l, t)
  | None =>
      let '(lq, t1) := alloc t in
      let t2 := putItem lq {| rq_topic := tp; priority := requestCnt t;
                              index := 0 |} t1 in
      let '(l, t3) := alloc t2 in
      let t4 := putTopic l {| entries := ∅; fifoHead := 0; fifoTail := 0;
                              rqItem := lq;
                              wcl := {| lastIncoming := 0; waitPeriod := 0 |} |}
                  t3 in
      let t5 := set_topics (<[tp := l]> (topics t4)) t4 in
      t6 ← heap_Push lq t5;
      Some (l, t6)
  end.

(** "This function assumes that topic is in the topics table." *)
Definition checkDeleteTopic (now : Z) (tp : Topic) (t : TopicTable)
  : option TopicTable :=
  l ← topics t !! tp;
  ti ← topicObjs t !! l;
  if (size (entries ti) =? 0)%nat && hasMinimumWaitPeriod (wcl ti) now
  then Some (set_topics (delete tp (topics t)) t)
  else Some t.

Definition getOrNewNode (nd : Node) (t : TopicTable) : loc * TopicTable :=
  match nodes t !! nd with
  | Some l => (l, t)
  | None =>
      let '(issued, used) := default (0, 0) (db t !! nd) in
      let '(l, t1) := alloc t in
      let t2 := putNode l {| n_entries := ∅; noTicketUntil := 0;
                             lastIssuedTicket := issued;
                             lastUsedTicket := used |} t1 in
      (l, set_nodes (<[nd := l]> (nodes t2)) t2)
  end.

(** "This function assumes that node is in the nodes table." *)
Definition checkDeleteNode (now : Z) (nd : Node) (t : TopicTable)
  : option TopicTable :=
  l ← nodes t !! nd;
  n ← nodeObjs t !! l;
  if (size (n_entries n) =? 0)%nat && (noTicketUntil n <? now)
  then Some (set_nodes (delete nd (nodes t)) t)
  else Some t.

Definition storeTicket (nd : Node) (t : TopicTable) : option TopicTable :=
  let '(l, t1) := getOrNewNode nd t in
  n ← nodeObjs t1 !! l;
  Some (set_db (<[nd := (lastIssuedTicket n, lastUsedTicket n)]> (db t1)) t1).

(** [topicInfo.getFifoTail]: the loop steps [fifoTail] upwards, wrapping at
    [2^64], to the first index that holds an entry; that is the key at the
    least cyclic distance from [fifoTail]. With no entry the loop never
    ends. *)
Definition nearerTail (tail : Z) (k : Z) (e : topicEntry)
  (acc : option (Z * topicEntry)) : option (Z * topicEntry) :=
  match acc with
  | None => Some (k, e)
  | Some (k', _) => if u64 (k - tail) <? u64 (k' - tail) then Some (k, e) else acc
  end.

Definition getFifoTail (l : loc) (t : TopicTable)
  : option (topicEntry * TopicTable) :=
  ti ← topicObjs t !! l;
  '(k, e) ← map_fold (nearerTail (fifoTail ti)) None (entries ti);
  Some (e, putTopic l {| entries := entries ti; fifoHead := fifoHead ti;
                         fifoTail := u64 (k + 1); rqItem := rqItem ti;
                         wcl := wcl ti |} t).

(** "entry should exist" *)
Definition deleteEntry (now : Z) (e : topicEntry) (t : TopicTable)
  : option TopicTable :=
  ln ← nodes t !! node e;
  n ← nodeObjs t !! ln;
  let ne := delete (topic e) (n_entries n) in
  let t1 := putNode ln {| n_entries := ne; noTicketUntil := noTicketUntil n;
                          lastIssuedTicket := lastIssuedTicket n;
                          lastUsedTicket := lastUsedTicket n |} t in
  t2 ← (if (size ne =? 0)%nat then checkDeleteNode now (node e) t1 else Some t1);
  lt ← topics t2 !! topic e;
  te ← topicObjs t2 !! lt;
  let es := delete (fifoIdx e) (entries te) in
  let t3 := putTopic lt {| entries := es; fifoHead := fifoHead te;
                           fifoTail := fifoTail te; rqItem := rqItem te;
                           wcl := wcl te |} t2 in
  t4 ← (if (size es =? 0)%nat
        then t' ← checkDeleteTopic now (topic e) t3;
             it ← rqObjs t' !! rqItem te;
             snd <$> heap_Remove (index it) t'
        else Some t3);
  Some (set_globalEntries (u64 (globalEntries t4 - 1)) t4).

(** The loop of [leastRequested] that pops the topics that are gone. *)
Fixpoint popStale (fuel : nat) (t : TopicTable) : option TopicTable :=
  match fuel with
  | O => None
  | S fuel' =>
      match requested t with
      | [] => Some t
      | l0 :: _ =>
          it ← rqObjs t !! l0;
          match topics t !! rq_topic it with
          | None => t1 ← snd <$> heap_Pop t; popStale fuel' t1
          | Some _ => Some t
          end
      end
  end.

(** [leastRequested]; the inner [None] is the Go function's [nil]. *)
Definition leastRequested (t : TopicTable)
  : option (option topicEntry * TopicTable) :=
  t1 ← popStale (heapFuel t) t;
  match requested t1 with
  | [] => Some (None, t1)
  | l0 :: _ =>
      it ← rqObjs t1 !! l0;
      l ← topics t1 !! rq_topic it;
      '(e, t2) ← getFifoTail l t1;
      Some (Some e, t2)
  end.

Fixpoint deleteEntries (now : Z) (es : list topicEntry) (t : TopicTable)
  : option TopicTable :=
  match es with
  | [] => Some t
  | e :: es' => t1 ← deleteEntry now e t; deleteEntries now es' t1
  end.

(** The body of the loop of [AddEntries] for one topic; [ln] is the local
    pointer [n]. *)
Definition addEntry (now : Z) (nd : Node) (ln : loc) (expiry : Z)
  (tp : Topic) (t : TopicTable) : option TopicTable :=
  '(lt, t1) ← getOrNewTopic tp t;
  te ← topicObjs t1 !! lt;
  t2 ← (if Z.of_nat (size (entries te)) =? MaxEntriesPerTopic
        then '(e, t') ← getFifoTail lt t1; deleteEntry now e t'
        else Some t1);
  t3 ← (if globalEntries t2 =? MaxEntries
        then '(oe, t') ← leastRequested t2;
             e ← oe; deleteEntry now e t'
        else Some t2);
  te ← topicObjs t3 !! lt;
  let idx := fifoHead te in
  let entry := {| topic := tp; fifoIdx := idx; node := nd;
                  expire := u64 (now + u64 expiry) |} in
  let t4 := putTopic lt {| entries := <[idx := entry]> (entries te);
                           fifoHead := u64 (idx + 1);
                           fifoTail := fifoTail te; rqItem := rqItem te;
                           wcl := registered (wcl te) now |} t3 in
  n ← nodeObjs t4 !! ln;
  let t5 := putNode ln {| n_entries := <[tp := entry]> (n_entries n);
                          noTicketUntil := noTicketUntil n;
                          lastIssuedTicket := lastIssuedTicket n;
                          lastUsedTicket := lastUsedTicket n |} t4 in
  Some (set_globalEntries (u64 (globalEntries t5 + 1)) t5).

Fixpoint addEntries (now : Z) (nd : Node) (ln : loc) (expiry : Z)
  (tps : list Topic) (t : TopicTable) : option TopicTable :=
  match tps with
  | [] => Some t
  | tp :: tps' =>
      t1 ← addEntry now nd ln expiry tp t; addEntries now nd ln expiry tps' t1
  end.

Definition AddEntries (now : Z) (nd : Node) (tps : list Topic) (expiry : Z)
  (t : TopicTable) : option TopicTable :=
  let '(ln, t1) := getOrNewNode nd t in
  n ← nodeObjs t1 !! ln;
  t2 ← deleteEntries now (snd <$> map_to_list (n_entries n)) t1;
  addEntries now nd ln expiry tps t2.

(** The inner loop of [collectGarbage] for one node, then
    [checkDeleteNode]. *)
Definition collectNode (now : Z) (nd : Node) (ln : loc) (t : TopicTable)
  : option TopicTable :=
  n ← nodeObjs t !! ln;
  let expired :=
    filter (fun e => expire e <= now) (snd <$> map_to_list (n_entries n)) in
  t1 ← deleteEntries now expired t;
  checkDeleteNode now nd t1.

Fixpoint collectNodes (now : Z) (nds : list (Node * loc)) (t : TopicTable)
  : option TopicTable :=
  match nds with
  | [] => Some t
  | (nd, ln) :: nds' => t1 ← collectNode now nd ln t; collectNodes now nds' t1
  end.

Fixpoint checkDeleteTopics (now : Z) (tps : list Topic) (t : TopicTable)
  : option TopicTable :=
  match tps with
  | [] => Some t
  | tp :: tps' => t1 ← checkDeleteTopic now tp t; checkDeleteTopics now tps' t1
  end.

Definition collectGarbage (now : Z) (t : TopicTable) : option TopicTable :=
  if u64 (now - lastGarbageCollection t) <? gcInterval then Some t
  else
    let t1 := set_lastGarbageCollection now t in
    t2 ← collectNodes now (map_to_list (nodes t1)) t1;
    checkDeleteTopics now (fst <$> map_to_list (topics t2)) t2.

(** [GetEntries]; the inner [None] is the [nil] slice. *)
Definition GetEntries (now : Z) (tp : Topic) (t : TopicTable)
  : option (option (list Node) * TopicTable) :=
  t1 ← collectGarbage now t;
  match topics t1 !! tp with
  | None => Some (None, t1)
  | Some l =>
      te ← topicObjs t1 !! l;
      let nds := (fun p => node p.2) <$> map_to_list (entries te) in
      let t2 := set_requestCnt (u64 (requestCnt t1 + 1)) t1 in
      t3 ← tq_update (rqItem te) (requestCnt t2) t2;
      Some (Some nds, t3)
  end.

(** The admission test of [useTicket] for one declared wait period. *)
Definition inWindow (currTime w : Z) : bool :=
  let relTime := int32 (currTime - w) in
  (-1 <=? relTime) && (relTime <=? regTimeWindow + 1).

(** The loop of [useTicket] that collects [regTopics]; [i] is the position
    of the head of [ws] in [waitPeriods]. *)
Fixpoint regTopicsLoop (currTime : Z) (n : nodeInfo) (tps : list Topic)
  (i : nat) (ws : list Z) : option (list Topic) :=
  match ws with
  | [] => Some []
  | w :: ws' =>
      if inWindow currTime w
      then tp ← tps !! i;
           rest ← regTopicsLoop currTime n tps (S i) ws';
           Some (match n_entries n !! tp with
                 | None => tp :: rest
                 | Some _ => rest
                 end)
      else regTopicsLoop currTime n tps (S i) ws'
  end.

(** [useTicket]. [e] is the value drawn by [rand.ExpFloat64()] in
    [noTicketTimeout]. *)
Definition useTicket (now : Z) (e : float) (nd : Node) (serialNo : Z)
  (tps : list Topic) (waitPeriods : list Z) (expiry : Z) (t : TopicTable)
  : option (bool * TopicTable) :=
  t1 ← collectGarbage now t;
  let '(ln, t2) := getOrNewNode nd t1 in
  n ← nodeObjs t2 !! ln;
  if serialNo <? lastUsedTicket n then Some (false, t2)
  else
    t3 ← (if negb (serialNo =? lastUsedTicket n)
          then storeTicket nd (putNode ln (withLastUsed n serialNo) t2)
          else Some t2);
    let currTime := u32 (now / 1000000000) in
    n ← nodeObjs t3 !! ln;
    regTopics ← regTopicsLoop currTime n tps 0 waitPeriods;
    match regTopics with
    | [] => Some (false, t3)
    | _ :: _ =>
        t4 ← AddEntries now nd regTopics expiry t3;
        n ← nodeObjs t4 !! ln;
        Some (true,
              putNode ln
                (withNoTicketUntil n (u64 (now + noTicketTimeout e))) t4)
    end.

Definition waitUntilOf (currTime : Z) (tp : Topic) (t : TopicTable) : option Z :=
  w ← match topics t !! tp with
      | Some l => te ← topicObjs t !! l; Some (waitPeriod (wcl te))
      | None => Some minWaitPeriod
      end;
  Some (u32 (currTime + u32 (w / 1000000000))).

(** [getTicket]; the result is [(serialNo, currTime, waitUntil)], with
    [None] for the [nil] slice. *)
Definition getTicket (now : Z) (nd : Node) (tps : list Topic) (t : TopicTable)
  : option ((Z * Z * option (list Z)) * TopicTable) :=
  t1 ← collectGarbage now t;
  let currTime := u32 (now / 1000000000) in
  let '(ln, t2) := getOrNewNode nd t1 in
  n ← nodeObjs t2 !! ln;
  if now <? noTicketUntil n then Some ((0, currTime, None), t2)
  else
    let issued := u32 (lastIssuedTicket n + 1) in
    let t3 := putNode ln (withLastIssued n issued) t2 in
    t4 ← storeTicket nd t3;
    ws ← mapM (fun tp => waitUntilOf currTime tp t4) tps;
    Some ((issued, currTime, Some ws), t4).

End Table.

(** *** Facts about [useTicket] and [getTicket] *)

Section TableFacts.

Variable math_Exp : float -> float.

(** The table after the counters of [nd], held in the record [n] at [ln],
    have been written to the record and to the node database. *)
Definition stored (nd : Node) (ln : loc) (n : nodeInfo) (t : TopicTable)
  : TopicTable :=
  set_db (<[nd := (lastIssuedTicket n, lastUsedTicket n)]> (db t))
         (putNode ln n t).

Lemma getOrNewNode_nodes nd t ln t' :
  getOrNewNode nd t = (ln, t') -> nodes t' !! nd = Some ln.
Proof.
  unfold getOrNewNode. destruct (nodes t !! nd) as [l|] eqn:E.
  - intros [= <- <-]. exact E.
  - destruct (default (0, 0) (db t !! nd)) as [issued used].
    cbn. intros [= <- <-]. cbn. apply lookup_insert_eq.
Qed.

Lemma getOrNewNode_found nd t ln :
  nodes t !! nd = Some ln -> getOrNewNode nd t = (ln, t).
Proof. intros H. unfold getOrNewNode. rewrite H. reflexivity. Qed.

Lemma storeTicket_put nd ln n t :
  nodes t !! nd = Some ln ->
  storeTicket nd (putNode ln n t) = Some (stored nd ln n t).
Proof.
  intros H. unfold storeTicket.
  rewrite (getOrNewNode_found nd (putNode ln n t) ln) by exact H.
  cbn. rewrite lookup_insert_eq. reflexivity.
Qed.

Lemma nodeObjs_stored nd ln n t : nodeObjs (stored nd ln n t) !! ln = Some n.
Proof. cbn. apply lookup_insert_eq. Qed.

(** The admission window in plain arithmetic, away from the wrap-around
    of the 32-bit clock. *)
Lemma inWindow_iff c w :
  - 2 ^ 31 <= c - w < 2 ^ 31 ->
  inWindow c w = true <-> -1 <= c - w <= regTimeWindow + 1.
Proof.
  intros Hr. unfold inWindow, int32, u32, regTimeWindow.
  change (2 ^ 31) with 2147483648 in *.
  change (2 ^ 32) with 4294967296 in *.
  rewrite andb_true_iff, Z.leb_le, Z.leb_le.
  destruct (Z_lt_le_dec (c - w) 0) as [Hneg|Hpos].
  - replace ((c - w) mod 4294967296) with (c - w + 4294967296)
      by (apply Z.mod_unique with (-1); lia).
    destruct (c - w + 4294967296 <? 2147483648) eqn:E;
      [apply Z.ltb_lt in E|apply Z.ltb_ge in E]; lia.
  - rewrite Z.mod_small by lia.
    destruct (c - w <? 2147483648) eqn:E;
      [apply Z.ltb_lt in E|apply Z.ltb_ge in E]; lia.
Qed.

Lemma regTopicsLoop_ext c n n' tps ws : forall i,
  n_entries n = n_entries n' ->
  regTopicsLoop c n tps i ws = regTopicsLoop c n' tps i ws.
Proof.
  induction ws as [|w ws IH]; intros i Hn; [reflexivity|].
  cbn [regTopicsLoop]. rewrite (IH (S i) Hn), Hn. reflexivity.
Qed.

(** [regTopics] holds the topics whose declared wait period passes the
    window and for which the node has no active entry. *)
Lemma regTopicsLoop_spec c n tps ws : forall i r,
  regTopicsLoop c n tps i ws = Some r ->
  forall tp, tp ∈ r <->
    exists j w, ws !! j = Some w /\ tps !! (i + j)%nat = Some tp /\
                inWindow c w = true /\ n_entries n !! tp = None.
Proof.
  induction ws as [|w ws IH]; intros i r Hr tp.
  - injection Hr as <-. split; [intros H; inversion H|].
    intros (j & w & Hj & _). rewrite lookup_nil in Hj. discriminate.
  - cbn [regTopicsLoop] in Hr.
    destruct (inWindow c w) eqn:Hw.
    + destruct (tps !! i) as [tp0|] eqn:Htp0; [|discriminate].
      cbn [mbind option_bind] in Hr.
      destruct (regTopicsLoop c n tps (S i) ws) as [rest|] eqn:Hrest;
        [|discriminate].
      cbn [mbind option_bind] in Hr. injection Hr as <-.
      specialize (IH (S i) rest Hrest tp).
      split.
      * intros Hin.
        assert (Hcase : (tp = tp0 /\ n_entries n !! tp0 = None) \/ tp ∈ rest).
        { destruct (n_entries n !! tp0) eqn:E; [right; exact Hin|].
          apply elem_of_cons in Hin as [->|Hin]; [left|right]; auto. }
        destruct Hcase as [[-> Hnone]|Hin'].
        -- exists 0%nat, w. rewrite Nat.add_0_r. auto.
        -- apply IH in Hin' as (j & w' & Hj & Htp & Hwin & Hnone).
           exists (S j), w'. rewrite Nat.add_succ_r. auto.
      * intros (j & w' & Hj & Htp & Hwin & Hnone).
        destruct j as [|j].
        -- rewrite Nat.add_0_r in Htp. rewrite Htp0 in Htp.
           injection Htp as ->. rewrite Hnone. apply elem_of_cons. auto.
        -- rewrite Nat.add_succ_r in Htp. cbn in Hj.
           assert (Hin : tp ∈ rest) by (apply IH; eauto 10).
           destruct (n_entries n !! tp0); [exact Hin|].
           apply elem_of_cons. auto.
    + specialize (IH (S i) r Hr tp). rewrite IH. split.
      * intros (j & w' & Hj & Htp & Hwin & Hnone).
        exists (S j), w'. rewrite Nat.add_succ_r. auto.
      * intros (j & w' & Hj & Htp & Hwin & Hnone).
        destruct j as [|j].
        -- cbn in Hj. injection Hj as ->. congruence.
        -- exists j, w'. rewrite Nat.add_succ_r in Htp. auto.
Qed.

(** The table once [useTicket] has passed the serial number check. *)
Definition afterSerial (nd : Node) (ln : loc) (n : nodeInfo) (serialNo : Z)
  (t : TopicTable) : TopicTable :=
  if serialNo =? lastUsedTicket n then t
  else stored nd ln (withLastUsed n serialNo) t.

(** **** Operations that leave the time of the last garbage collection
    alone *)

Local Arguments heapFuel : simpl never.

Ltac inv_opt :=
  repeat first
    [ progress simplify_option_eq
    | case_match
    | match goal with p : (_ * _)%type |- _ => destruct p end ].

Ltac gc_known := fail.
Ltac gc_done :=
  repeat (first
    [ reflexivity
    | progress cbn [lastGarbageCollection putNode putTopic putItem set_db
                    set_nodes set_topics set_globalEntries set_requested
                    set_requestCnt set_nodeObjs set_topicObjs set_rqObjs
                    set_nextLoc alloc fst snd]
    | gc_known ]).

Lemma setIndex_gc l i t t' :
  setIndex l i t = Some t' ->
  lastGarbageCollection t' = lastGarbageCollection t.
Proof. unfold setIndex. intros H. inv_opt. reflexivity. Qed.

Ltac gc_known ::=
  first [ erewrite setIndex_gc by eassumption ].

Lemma tq_Swap_gc t i j t' :
  tq_Swap t i j = Some t' ->
  lastGarbageCollection t' = lastGarbageCollection t.
Proof. unfold tq_Swap. intros H. inv_opt; gc_done. Qed.

Lemma tq_Push_gc l t t' :
  tq_Push l t = Some t' ->
  lastGarbageCollection t' = lastGarbageCollection t.
Proof. unfold tq_Push. intros H. inv_opt; cbn; gc_done. Qed.

Lemma tq_Pop_gc t l t' :
  tq_Pop t = Some (l, t') ->
  lastGarbageCollection t' = lastGarbageCollection t.
Proof. unfold tq_Pop. intros H. inv_opt; cbn; gc_done. Qed.

Ltac gc_known ::=
  first [ erewrite setIndex_gc by eassumption
        | erewrite tq_Swap_gc by eassumption
        | erewrite tq_Push_gc by eassumption
        | erewrite tq_Pop_gc by eassumption ].

Lemma heap_up_gc fuel : forall j t t',
  heap_up fuel j t = Some t' ->
  lastGarbageCollection t' = lastGarbageCollection t.
Proof.
  induction fuel as [|fuel IH]; intros j t t' H; [discriminate|].
  cbn [heap_up] in H. inv_opt; try reflexivity.
  erewrite IH by eassumption. gc_done.
Qed.

Lemma heap_down_gc fuel : forall i n t t',
  heap_down fuel i n t = Some t' ->
  lastGarbageCollection t' = lastGarbageCollection t.
Proof.
  induction fuel as [|fuel IH]; intros i n t t' H; [discriminate|].
  cbn [heap_down] in H. inv_opt; try reflexivity;
  erewrite IH by eassumption; gc_done.
Qed.

Ltac gc_known ::=
  first [ erewrite setIndex_gc by eassumption
        | erewrite tq_Swap_gc by eassumption
        | erewrite tq_Push_gc by eassumption
        | erewrite tq_Pop_gc by eassumption
        | erewrite heap_up_gc by eassumption
        | erewrite heap_down_gc by eassumption ].

Lemma heap_Push_gc l t t' :
  heap_Push l t = Some t' ->
  lastGarbageCollection t' = lastGarbageCollection t.
Proof. unfold heap_Push. intros H. inv_opt; gc_done. Qed.

Lemma heap_Pop_gc t l t' :
  heap_Pop t = Some (l, t') ->
  lastGarbageCollection t' = lastGarbageCollection t.
Proof. unfold heap_Pop. intros H. inv_opt; gc_done. Qed.

Lemma heap_Remove_gc i t l t' :
  heap_Remove i t = Some (l, t') ->
  lastGarbageCollection t' = lastGarbageCollection t.
Proof. unfold heap_Remove. intros H. inv_opt; gc_done. Qed.

Ltac gc_known ::=
  first [ erewrite setIndex_gc by eassumption
        | erewrite tq_Swap_gc by eassumption
        | erewrite tq_Push_gc by eassumption
        | erewrite tq_Pop_gc by eassumption
        | erewrite heap_up_gc by eassumption
        | erewrite heap_down_gc by eassumption
        | erewrite heap_Push_gc by eassumption
        | erewrite heap_Pop_gc by eassumption
        | erewrite heap_Remove_gc by eassumption ].

Lemma getOrNewTopic_gc tp t l t' :
  getOrNewTopic tp t = Some (l, t') ->
  lastGarbageCollection t' = lastGarbageCollection t.
Proof. unfold getOrNewTopic, alloc. intros H. inv_opt; gc_done. Qed.

Lemma checkDeleteTopic_gc now tp t t' :
  checkDeleteTopic math_Exp now tp t = Some t' ->
  lastGarbageCollection t' = lastGarbageCollection t.
Proof. unfold checkDeleteTopic. intros H. inv_opt; gc_done. Qed.

Lemma getOrNewNode_gc nd t l t' :
  getOrNewNode nd t = (l, t') ->
  lastGarbageCollection t' = lastGarbageCollection t.
Proof. unfold getOrNewNode, alloc. intros H. inv_opt; gc_done. Qed.

Lemma checkDeleteNode_gc now nd t t' :
  checkDeleteNode now nd t = Some t' ->
  lastGarbageCollection t' = lastGarbageCollection t.
Proof. unfold checkDeleteNode. intros H. inv_opt; gc_done. Qed.

Lemma getFifoTail_gc l t e t' :
  getFifoTail l t = Some (e, t') ->
  lastGarbageCollection t' = lastGarbageCollection t.
Proof. unfold getFifoTail. intros H. inv_opt; gc_done. Qed.

Ltac gc_known ::=
  first [ erewrite setIndex_gc by eassumption
        | erewrite tq_Swap_gc by eassumption
        | erewrite tq_Push_gc by eassumption
        | erewrite tq_Pop_gc by eassumption
        | erewrite heap_up_gc by eassumption
        | erewrite heap_down_gc by eassumption
        | erewrite heap_Push_gc by eassumption
        | erewrite heap_Pop_gc by eassumption
        | erewrite heap_Remove_gc by eassumption
        | erewrite getOrNewTopic_gc by eassumption
        | erewrite checkDeleteTopic_gc by eassumption
        | erewrite getOrNewNode_gc by eassumption
        | erewrite checkDeleteNode_gc by eassumption
        | erewrite getFifoTail_gc by eassumption ].

Lemma deleteEntry_gc now e t t' :
  deleteEntry math_Exp now e t = Some t' ->
  lastGarbageCollection t' = lastGarbageCollection t.
Proof. unfold deleteEntry. intros H. inv_opt; gc_done. Qed.

Lemma popStale_gc fuel : forall t t',
  popStale fuel t = Some t' ->
  lastGarbageCollection t' = lastGarbageCollection t.
Proof.
  induction fuel as [|fuel IH]; intros t t' H; [discriminate|].
  cbn [popStale] in H. inv_opt; try reflexivity.
  erewrite IH by eassumption. gc_done.
Qed.

Lemma leastRequested_gc t oe t' :
  leastRequested t = Some (oe, t') ->
  lastGarbageCollection t' = lastGarbageCollection t.
Proof.
  unfold leastRequested. intros H.
  destruct (popStale (heapFuel t) t) as [t1|] eqn:Hp; [|discriminate].
  apply popStale_gc in Hp. cbn [mbind option_bind] in H.
  inv_opt; gc_done; exact Hp.
Qed.

Lemma deleteEntries_gc now es : forall t t',
  deleteEntries math_Exp now es t = Some t' ->
  lastGarbageCollection t' = lastGarbageCollection t.
Proof.
  induction es as [|e es IH]; intros t t' H; cbn [deleteEntries] in H.
  - inv_opt. reflexivity.
  - inv_opt. erewrite IH by eassumption.
    erewrite deleteEntry_gc by eassumption. reflexivity.
Qed.

Lemma addEntry_gc now nd ln expiry tp t t' :
  addEntry math_Exp now nd ln expiry tp t = Some t' ->
  lastGarbageCollection t' = lastGarbageCollection t.
Proof.
  unfold addEntry. intros H. inv_opt;
    repeat first [ progress gc_done
                 | erewrite deleteEntry_gc by eassumption
                 | erewrite leastRequested_gc by eassumption ].
Qed.

Lemma addEntries_gc now nd ln expiry tps : forall t t',
  addEntries math_Exp now nd ln expiry tps t = Some t' ->
  lastGarbageCollection t' = lastGarbageCollection t.
Proof.
  induction tps as [|tp tps IH]; intros t t' H; cbn [addEntries] in H.
  - inv_opt. reflexivity.
  - inv_opt. erewrite IH by eassumption.
    erewrite addEntry_gc by eassumption. reflexivity.
Qed.

Lemma AddEntries_gc now nd tps expiry t t' :
  AddEntries math_Exp now nd tps expiry t = Some t' ->
  lastGarbageCollection t' = lastGarbageCollection t.
Proof.
  unfold AddEntries. intros H.
  destruct (getOrNewNode nd t) as [ln t1] eqn:Hn.
  inv_opt. erewrite addEntries_gc by eassumption.
  erewrite deleteEntries_gc by eassumption.
  erewrite getOrNewNode_gc by eassumption. reflexivity.
Qed.

(** The paths through [useTicket]. *)
Lemma useTicket_inv now e nd serialNo tps ws expiry t b t' :
  useTicket math_Exp now e nd serialNo tps ws expiry t = Some (b, t') ->
  exists t1 ln t2 n,
    collectGarbage math_Exp now t = Some t1 /\
    getOrNewNode nd t1 = (ln, t2) /\
    nodeObjs t2 !! ln = Some n /\
    ((serialNo < lastUsedTicket n /\ b = false /\ t' = t2) \/
     (lastUsedTicket n <= serialNo /\
      exists regTopics,
        regTopicsLoop (u32 (now / 1000000000)) n tps 0 ws = Some regTopics /\
        ((regTopics = [] /\ b = false /\
          t' = afterSerial nd ln n serialNo t2) \/
         (regTopics <> [] /\ b = true /\
          exists t4 n4,
            AddEntries math_Exp now nd regTopics expiry
              (afterSerial nd ln n serialNo t2) = Some t4 /\
            nodeObjs t4 !! ln = Some n4 /\
            t' = putNode ln
                   (withNoTicketUntil n4 (u64 (now + noTicketTimeout e)))
                   t4)))).
Proof.
  unfold useTicket. intros H.
  destruct (collectGarbage math_Exp now t) as [t1|] eqn:Hgc; [|discriminate].
  cbn [mbind option_bind] in H.
  destruct (getOrNewNode nd t1) as [ln t2] eqn:Hn.
  destruct (nodeObjs t2 !! ln) as [n|] eqn:Hobj; [|discriminate].
  cbn [mbind option_bind] in H.
  exists t1, ln, t2, n. do 3 (split; [first [assumption | reflexivity]|]).
  destruct (serialNo <? lastUsedTicket n) eqn:Hlt.
  { apply Z.ltb_lt in Hlt. injection H as <- <-. left. auto. }
  apply Z.ltb_ge in Hlt. right. split; [exact Hlt|].
  assert (Hpre : exists n',
    n_entries n' = n_entries n /\
    nodeObjs (afterSerial nd ln n serialNo t2) !! ln = Some n' /\
    (if negb (serialNo =? lastUsedTicket n)
     then storeTicket nd (putNode ln (withLastUsed n serialNo) t2)
     else Some t2) = Some (afterSerial nd ln n serialNo t2)).
  { unfold afterSerial. destruct (serialNo =? lastUsedTicket n); cbn [negb].
    - exists n. auto.
    - exists (withLastUsed n serialNo). split; [reflexivity|].
      split; [apply nodeObjs_stored|].
      apply (storeTicket_put nd ln (withLastUsed n serialNo) t2).
      eapply getOrNewNode_nodes; exact Hn. }
  destruct Hpre as (n' & Hent & Hobj' & Hstore).
  rewrite Hstore in H. cbn [mbind option_bind] in H.
  rewrite Hobj' in H. cbn [mbind option_bind] in H.
  rewrite (regTopicsLoop_ext _ n' n tps ws 0 Hent) in H.
  destruct (regTopicsLoop _ n tps 0 ws) as [regTopics|]; [|discriminate].
  cbn [mbind option_bind] in H. exists regTopics. split; [reflexivity|].
  destruct regTopics as [|tp rest].
  - injection H as <- <-. left. auto.
  - right. split; [discriminate|].
    destruct (AddEntries math_Exp now nd (tp :: rest) expiry _) as [t4|];
      [|discriminate].
    cbn [mbind option_bind] in H.
    destruct (nodeObjs t4 !! ln) as [n4|] eqn:Hn4; [|discriminate].
    cbn [mbind option_bind] in H. injection H as <- <-.
    split; [reflexivity|]. exists t4, n4. auto.
Qed.

(** What a call of [useTicket] that returns [false] leaves behind. *)
Definition rejected (math_Exp : float -> float) (now : Z) (nd : Node) (serialNo : Z)
  (t t' : TopicTable) : Prop :=
  exists t1 ln t2 n,
    collectGarbage math_Exp now t = Some t1 /\
    getOrNewNode nd t1 = (ln, t2) /\
    nodeObjs t2 !! ln = Some n /\
    ((serialNo <= lastUsedTicket n /\ t' = t2) \/
     (lastUsedTicket n < serialNo /\
      t' = stored nd ln (withLastUsed n serialNo) t2)) /\
    topics t' = topics t2 /\ topicObjs t' = topicObjs t2 /\
    globalEntries t' = globalEntries t2 /\ nodes t' = nodes t2 /\
    exists n', nodeObjs t' !! ln = Some n' /\
               n_entries n' = n_entries n /\
               noTicketUntil n' = noTicketUntil n /\
               lastIssuedTicket n' = lastIssuedTicket n.

(** C2 (as the code has it). A call of [useTicket] that returns [false]
    registers no entry, leaves [lastIssuedTicket] alone and does not set
    [noTicketUntil]: the table is the one left by the garbage collection
    and the lookup of the node's record, except that a serial number above
    [lastUsedTicket] has been taken over into the record and the counters
    have been written to the node database. *)
Theorem useTicket_false_state now e nd serialNo tps ws expiry t t' :
  useTicket math_Exp now e nd serialNo tps ws expiry t = Some (false, t') ->
  rejected math_Exp now nd serialNo t t'.
Proof.
  unfold rejected.
  intros H.
  destruct (useTicket_inv _ _ _ _ _ _ _ _ _ _ H)
    as (t1 & ln & t2 & n & Hgc & Hn & Hobj & Hcase).
  exists t1, ln, t2, n. do 3 (split; [assumption|]).
  assert (Hfin : (serialNo <= lastUsedTicket n /\ t' = t2) \/
                 (lastUsedTicket n < serialNo /\
                  t' = stored nd ln (withLastUsed n serialNo) t2)).
  { destruct Hcase as [(Hlt & _ & ->)|(Hle & r & _ & [(_ & _ & ->)|(_ & Hb & _)])];
      [left; split; [lia|reflexivity]| |discriminate].
    unfold afterSerial. destruct (serialNo =? lastUsedTicket n) eqn:E.
    - left. apply Z.eqb_eq in E. split; [lia|reflexivity].
    - right. apply Z.eqb_neq in E. split; [lia|reflexivity]. }
  split; [exact Hfin|].
  destruct Hfin as [[_ ->]|[_ ->]].
  - do 4 (split; [reflexivity|]). exists n. auto.
  - do 4 (split; [reflexivity|]). exists (withLastUsed n serialNo).
    split; [apply nodeObjs_stored|]. auto.
Qed.

(** Which topics a call of [useTicket] with result [b] admits. *)
Definition admission (math_Exp : float -> float) (now : Z) (nd : Node) (serialNo : Z)
  (tps : list Topic) (ws : list Z) (expiry : Z) (t : TopicTable) (b : bool) : Prop :=
  exists t1 ln t2 n,
    collectGarbage math_Exp now t = Some t1 /\
    getOrNewNode nd t1 = (ln, t2) /\
    nodeObjs t2 !! ln = Some n /\
    (serialNo < lastUsedTicket n -> b = false) /\
    (lastUsedTicket n <= serialNo ->
     exists regTopics,
       regTopicsLoop (u32 (now / 1000000000)) n tps 0 ws = Some regTopics /\
       (forall tp, tp ∈ regTopics <->
          exists j w, ws !! j = Some w /\ tps !! j = Some tp /\
                      inWindow (u32 (now / 1000000000)) w = true /\
                      n_entries n !! tp = None) /\
       (b = true <-> regTopics <> []) /\
       (b = true ->
        exists t4, AddEntries math_Exp now nd regTopics expiry
                     (afterSerial nd ln n serialNo t2) = Some t4)) /\
    (forall c w, - 2 ^ 31 <= c - w < 2 ^ 31 ->
       (inWindow c w = true <-> -1 <= c - w <= regTimeWindow + 1)) /\
    (forall c, inWindow c (c - 11) = true /\ inWindow c (c - 12) = false).

(** C5 (as the code has it). Once the serial number is accepted,
    [useTicket] passes to [AddEntries] exactly the topics whose declared
    wait period [w] has [currTime - w] in [[-1, regTimeWindow + 1]] (taken
    as a signed 32-bit difference) and for which the node's record holds no
    active entry, and it returns [true] exactly when there is such a topic.
    A wait period of [currTime - 11] lies in the window, one of
    [currTime - 12] does not. *)
Theorem useTicket_admits now e nd serialNo tps ws expiry t b t' :
  useTicket math_Exp now e nd serialNo tps ws expiry t = Some (b, t') ->
  admission math_Exp now nd serialNo tps ws expiry t b.
Proof.
  unfold admission.
  intros H.
  destruct (useTicket_inv _ _ _ _ _ _ _ _ _ _ H)
    as (t1 & ln & t2 & n & Hgc & Hn & Hobj & Hcase).
  exists t1, ln, t2, n. do 3 (split; [assumption|]).
  split.
  { intros Hlt. destruct Hcase as [(_ & Hb & _)|(Hle & _)]; [exact Hb|lia]. }
  split.
  { intros Hle. destruct Hcase as [(Hlt & _)|(_ & r & Hr & Hcase)]; [lia|].
    exists r. split; [exact Hr|]. split.
    - intros tp. rewrite (regTopicsLoop_spec _ _ _ _ 0%nat r Hr tp).
      reflexivity.
    - destruct Hcase as [(-> & -> & _)|(Hne & -> & t4 & n4 & Hadd & _)].
      + split; [split; [discriminate|congruence]|discriminate].
      + split; [tauto|]. intros _. exists t4. exact Hadd. }
  split; [exact inWindow_iff|].
  intros c. split.
  - apply inWindow_iff; [|unfold regTimeWindow]; lia.
  - destruct (inWindow c (c - 12)) eqn:E; [|reflexivity].
    apply inWindow_iff in E; [unfold regTimeWindow in E|]; lia.
Qed.

(** The paths through [getTicket]. *)
Lemma getTicket_inv now nd tps t r t' :
  getTicket math_Exp now nd tps t = Some (r, t') ->
  exists t1 ln t2 n,
    collectGarbage math_Exp now t = Some t1 /\
    getOrNewNode nd t1 = (ln, t2) /\
    nodeObjs t2 !! ln = Some n /\
    ((now < noTicketUntil n /\
      r = (0, u32 (now / 1000000000), None) /\ t' = t2) \/
     (noTicketUntil n <= now /\
      t' = stored nd ln (withLastIssued n (u32 (lastIssuedTicket n + 1))) t2 /\
      exists wu,
        mapM (fun tp => waitUntilOf (u32 (now / 1000000000)) tp t') tps
          = Some wu /\
        r = (u32 (lastIssuedTicket n + 1), u32 (now / 1000000000), Some wu))).
Proof.
  unfold getTicket. intros H.
  destruct (collectGarbage math_Exp now t) as [t1|] eqn:Hgc; [|discriminate].
  cbn [mbind option_bind] in H.
  destruct (getOrNewNode nd t1) as [ln t2] eqn:Hn.
  destruct (nodeObjs t2 !! ln) as [n|] eqn:Hobj; [|discriminate].
  cbn [mbind option_bind] in H.
  exists t1, ln, t2, n. do 3 (split; [first [assumption | reflexivity]|]).
  destruct (now <? noTicketUntil n) eqn:Hlt.
  { apply Z.ltb_lt in Hlt. injection H as <- <-. left. auto. }
  apply Z.ltb_ge in Hlt. right. split; [exact Hlt|].
  rewrite (storeTicket_put nd ln (withLastIssued n _) t2) in H
    by (eapply getOrNewNode_nodes; exact Hn).
  cbn [mbind option_bind] in H.
  destruct (mapM _ tps) as [wu|] eqn:Hwu; [|discriminate].
  cbn [mbind option_bind] in H. injection H as <- <-.
  split; [reflexivity|]. exists wu. auto.
Qed.

(** The wait period that [getTicket] reports for a topic: the one of its
    control loop, [minWaitPeriod] for a topic the table does not hold. *)
Definition reportedWait (t : TopicTable) (tp : Topic) (p : Z) : Prop :=
  match topics t !! tp with
  | Some l => exists te, topicObjs t !! l = Some te /\ p = waitPeriod (wcl te)
  | None => p = minWaitPeriod
  end.

Lemma waitUntilOf_reported c tp t w :
  waitUntilOf c tp t = Some w ->
  exists p, reportedWait t tp p /\ w = u32 (c + u32 (p / 1000000000)).
Proof.
  unfold waitUntilOf, reportedWait.
  destruct (topics t !! tp) as [l|].
  - destruct (topicObjs t !! l) as [te|]; [|discriminate].
    cbn. intros [= <-]. exists (waitPeriod (wcl te)). eauto.
  - cbn. intros [= <-]. exists minWaitPeriod. auto.
Qed.

(** The result [r] and the table [t'] of a call of [getTicket]. *)
Definition ticketResult (math_Exp : float -> float) (now : Z) (nd : Node) (tps : list Topic)
  (t : TopicTable) (r : Z * Z * option (list Z)) (t' : TopicTable) : Prop :=
  exists t1 ln t2 n,
    collectGarbage math_Exp now t = Some t1 /\
    getOrNewNode nd t1 = (ln, t2) /\
    nodeObjs t2 !! ln = Some n /\
    (now < noTicketUntil n ->
     r = (0, u32 (now / 1000000000), None) /\ t' = t2) /\
    (noTicketUntil n <= now ->
     exists wu,
       r = (u32 (lastIssuedTicket n + 1), u32 (now / 1000000000), Some wu) /\
       nodeObjs t' !! ln
         = Some (withLastIssued n (u32 (lastIssuedTicket n + 1))) /\
       db t' !! nd = Some (u32 (lastIssuedTicket n + 1), lastUsedTicket n) /\
       topics t' = topics t2 /\ topicObjs t' = topicObjs t2 /\
       Forall2 (fun tp w =>
                  exists p, reportedWait t2 tp p /\
                            w = u32 (u32 (now / 1000000000)
                                     + u32 (p / 1000000000)))
               tps wu).

(** C7 (as the code has it). While [noTicketUntil] lies ahead, [getTicket]
    returns serial number zero and no wait times, next to the current time
    in seconds, and touches neither the counters nor the node database.
    Otherwise it increments [lastIssuedTicket], writes both counters to the
    node database and returns, for each topic, the current time plus the
    topic's wait period in seconds ([minWaitPeriod] for an unknown topic). *)
Theorem getTicket_result now nd tps t r t' :
  getTicket math_Exp now nd tps t = Some (r, t') ->
  ticketResult math_Exp now nd tps t r t'.
Proof.
  unfold ticketResult.
  intros H.
  destruct (getTicket_inv _ _ _ _ _ _ H)
    as (t1 & ln & t2 & n & Hgc & Hn & Hobj & Hcase).
  exists t1, ln, t2, n. do 3 (split; [assumption|]).
  split.
  - intros Hlt. destruct Hcase as [(_ & Hr & Ht)|(Hle & _)]; [auto|lia].
  - intros Hle. destruct Hcase as [(Hlt & _)|(_ & -> & wu & Hwu & ->)]; [lia|].
    exists wu. split; [reflexivity|].
    split; [apply nodeObjs_stored|].
    split; [cbn; apply lookup_insert_eq|].
    do 2 (split; [reflexivity|]).
    apply mapM_Some in Hwu.
    eapply Forall2_impl; [exact Hwu|].
    intros tp w Hw. apply waitUntilOf_reported in Hw as (p & Hp & ->).
    exists p. split; [exact Hp|reflexivity].
Qed.

(** **** Operations that leave the topic records alone *)

Ltac objs_known := fail.
Ltac objs_done :=
  repeat (first
    [ reflexivity
    | progress cbn [topicObjs putNode putItem set_db
                    set_nodes set_topics set_globalEntries set_requested
                    set_requestCnt set_nodeObjs set_rqObjs
                    set_lastGarbageCollection set_nextLoc alloc fst snd]
    | objs_known ]).

Lemma setIndex_objs l i t t' :
  setIndex l i t = Some t' ->
  topicObjs t' = topicObjs t.
Proof. unfold setIndex. intros H. inv_opt. reflexivity. Qed.

Ltac objs_known ::=
  first [ erewrite setIndex_objs by eassumption ].

Lemma tq_Swap_objs t i j t' :
  tq_Swap t i j = Some t' ->
  topicObjs t' = topicObjs t.
Proof. unfold tq_Swap. intros H. inv_opt; objs_done. Qed.

Ltac objs_known ::=
  first [ erewrite setIndex_objs by eassumption
        | erewrite tq_Swap_objs by eassumption ].

Lemma tq_Push_objs l t t' :
  tq_Push l t = Some t' ->
  topicObjs t' = topicObjs t.
Proof. unfold tq_Push. intros H. inv_opt; cbn; objs_done. Qed.

Ltac objs_known ::=
  first [ erewrite setIndex_objs by eassumption
        | erewrite tq_Swap_objs by eassumption
        | erewrite tq_Push_objs by eassumption ].

Lemma tq_Pop_objs t l t' :
  tq_Pop t = Some (l, t') ->
  topicObjs t' = topicObjs t.
Proof. unfold tq_Pop. intros H. inv_opt; cbn; objs_done. Qed.

Ltac objs_known ::=
  first [ erewrite setIndex_objs by eassumption
        | erewrite tq_Swap_objs by eassumption
        | erewrite tq_Push_objs by eassumption
        | erewrite tq_Pop_objs by eassumption ].

Lemma heap_up_objs fuel : forall j t t',
  heap_up fuel j t = Some t' ->
  topicObjs t' = topicObjs t.
Proof.
  induction fuel as [|fuel IH]; intros j t t' H; [discriminate|].
  cbn [heap_up] in H. inv_opt; try reflexivity.
  erewrite IH by eassumption. objs_done.
Qed.

Ltac objs_known ::=
  first [ erewrite setIndex_objs by eassumption
        | erewrite tq_Swap_objs by eassumption
        | erewrite tq_Push_objs by eassumption
        | erewrite tq_Pop_objs by eassumption
        | erewrite heap_up_objs by eassumption ].

Lemma heap_down_objs fuel : forall i n t t',
  heap_down fuel i n t = Some t' ->
  topicObjs t' = topicObjs t.
Proof.
  induction fuel as [|fuel IH]; intros i n t t' H; [discriminate|].
  cbn [heap_down] in H. inv_opt; try reflexivity;
  erewrite IH by eassumption; objs_done.
Qed.

Ltac objs_known ::=
  first [ erewrite setIndex_objs by eassumption
        | erewrite tq_Swap_objs by eassumption
        | erewrite tq_Push_objs by eassumption
        | erewrite tq_Pop_objs by eassumption
        | erewrite heap_up_objs by eassumption
        | erewrite heap_down_objs by eassumption ].

Lemma heap_Push_objs l t t' :
  heap_Push l t = Some t' ->
  topicObjs t' = topicObjs t.
Proof. unfold heap_Push. intros H. inv_opt; objs_done. Qed.

Ltac objs_known ::=
  first [ erewrite setIndex_objs by eassumption
        | erewrite tq_Swap_objs by eassumption
        | erewrite tq_Push_objs by eassumption
        | erewrite tq_Pop_objs by eassumption
        | erewrite heap_up_objs by eassumption
        | erewrite heap_down_objs by eassumption
        | erewrite heap_Push_objs by eassumption ].

Lemma heap_Pop_objs t l t' :
  heap_Pop t = Some (l, t') ->
  topicObjs t' = topicObjs t.
Proof. unfold heap_Pop. intros H. inv_opt; objs_done. Qed.

Ltac objs_known ::=
  first [ erewrite setIndex_objs by eassumption
        | erewrite tq_Swap_objs by eassumption
        | erewrite tq_Push_objs by eassumption
        | erewrite tq_Pop_objs by eassumption
        | erewrite heap_up_objs by eassumption
        | erewrite heap_down_objs by eassumption
        | erewrite heap_Push_objs by eassumption
        | erewrite heap_Pop_objs by eassumption ].

Lemma heap_Remove_objs i t l t' :
  heap_Remove i t = Some (l, t') ->
  topicObjs t' = topicObjs t.
Proof. unfold heap_Remove. intros H. inv_opt; objs_done. Qed.

Ltac objs_known ::=
  first [ erewrite setIndex_objs by eassumption
        | erewrite tq_Swap_objs by eassumption
        | erewrite tq_Push_objs by eassumption
        | erewrite tq_Pop_objs by eassumption
        | erewrite heap_up_objs by eassumption
        | erewrite heap_down_objs by eassumption
        | erewrite heap_Push_objs by eassumption
        | erewrite heap_Pop_objs by eassumption
        | erewrite heap_Remove_objs by eassumption ].

Lemma checkDeleteTopic_objs now tp t t' :
  checkDeleteTopic math_Exp now tp t = Some t' ->
  topicObjs t' = topicObjs t.
Proof. unfold checkDeleteTopic. intros H. inv_opt; objs_done. Qed.

Ltac objs_known ::=
  first [ erewrite setIndex_objs by eassumption
        | erewrite tq_Swap_objs by eassumption
        | erewrite tq_Push_objs by eassumption
        | erewrite tq_Pop_objs by eassumption
        | erewrite heap_up_objs by eassumption
        | erewrite heap_down_objs by eassumption
        | erewrite heap_Push_objs by eassumption
        | erewrite heap_Pop_objs by eassumption
        | erewrite heap_Remove_objs by eassumption
        | erewrite checkDeleteTopic_objs by eassumption ].

Lemma checkDeleteNode_objs now nd t t' :
  checkDeleteNode now nd t = Some t' ->
  topicObjs t' = topicObjs t.
Proof. unfold checkDeleteNode. intros H. inv_opt; objs_done. Qed.

Ltac objs_known ::=
  first [ erewrite setIndex_objs by eassumption
        | erewrite tq_Swap_objs by eassumption
        | erewrite tq_Push_objs by eassumption
        | erewrite tq_Pop_objs by eassumption
        | erewrite heap_up_objs by eassumption
        | erewrite heap_down_objs by eassumption
        | erewrite heap_Push_objs by eassumption
        | erewrite heap_Pop_objs by eassumption
        | erewrite heap_Remove_objs by eassumption
        | erewrite checkDeleteTopic_objs by eassumption
        | erewrite checkDeleteNode_objs by eassumption ].

Lemma popStale_objs fuel : forall t t',
  popStale fuel t = Some t' ->
  topicObjs t' = topicObjs t.
Proof.
  induction fuel as [|fuel IH]; intros t t' H; [discriminate|].
  cbn [popStale] in H. inv_opt; try reflexivity.
  erewrite IH by eassumption. objs_done.
Qed.

Ltac objs_known ::=
  first [ erewrite setIndex_objs by eassumption
        | erewrite tq_Swap_objs by eassumption
        | erewrite tq_Push_objs by eassumption
        | erewrite tq_Pop_objs by eassumption
        | erewrite heap_up_objs by eassumption
        | erewrite heap_down_objs by eassumption
        | erewrite heap_Push_objs by eassumption
        | erewrite heap_Pop_objs by eassumption
        | erewrite heap_Remove_objs by eassumption
        | erewrite checkDeleteTopic_objs by eassumption
        | erewrite checkDeleteNode_objs by eassumption
        | erewrite popStale_objs by eassumption ].

(** **** The wait control loops under evictions *)

Definition wclAt (t : TopicTable) (l : loc) : option waitControlLoop :=
  wcl <$> (topicObjs t !! l).

Lemma putTopic_wclAt l0 ti te t l :
  topicObjs t !! l0 = Some te -> wcl ti = wcl te ->
  wclAt (putTopic l0 ti t) l = wclAt t l.
Proof.
  intros Hte Hw. unfold wclAt. cbn.
  destruct (decide (l0 = l)) as [->|Hne].
  - rewrite lookup_insert_eq, Hte. cbn. congruence.
  - rewrite lookup_insert_ne by exact Hne. reflexivity.
Qed.

Lemma getFifoTail_wclAt l0 t e t' l :
  getFifoTail l0 t = Some (e, t') -> wclAt t' l = wclAt t l.
Proof.
  unfold getFifoTail. intros H. inv_opt.
  eapply putTopic_wclAt; [eassumption|reflexivity].
Qed.

Lemma deleteEntry_wclAt now e t t' l :
  deleteEntry math_Exp now e t = Some t' -> wclAt t' l = wclAt t l.
Proof.
  unfold deleteEntry. intros H.
  destruct (nodes t !! node e) as [ln|]; [|discriminate].
  cbn [mbind option_bind] in H.
  destruct (nodeObjs t !! ln) as [n|]; [|discriminate].
  cbn [mbind option_bind] in H.
  set (t1 := putNode ln _ t) in H.
  assert (H1 : topicObjs t1 = topicObjs t) by reflexivity.
  destruct (if (size (delete (topic e) (n_entries n)) =? 0)%nat
            then checkDeleteNode now (node e) t1
            else Some t1) as [t2|] eqn:E2; [|discriminate].
  assert (H2 : topicObjs t2 = topicObjs t).
  { rewrite <- H1.
    destruct (size (delete (topic e) (n_entries n)) =? 0)%nat.
    - eapply checkDeleteNode_objs. exact E2.
    - injection E2 as <-. reflexivity. }
  cbn [mbind option_bind] in H.
  destruct (topics t2 !! topic e) as [lt|]; [|discriminate].
  cbn [mbind option_bind] in H.
  destruct (topicObjs t2 !! lt) as [te|] eqn:Ete; [|discriminate].
  cbn [mbind option_bind] in H.
  set (t3 := putTopic lt _ t2) in H.
  assert (H3 : wclAt t3 l = wclAt t l).
  { unfold t3. erewrite putTopic_wclAt; [|exact Ete|reflexivity].
    unfold wclAt. rewrite H2. reflexivity. }
  destruct (if (size (delete (fifoIdx e) (entries te)) =? 0)%nat
            then _ else Some t3) as [t4|] eqn:E4; [|discriminate].
  cbn [mbind option_bind] in H. injection H as <-.
  change (wclAt t4 l = wclAt t l). rewrite <- H3.
  destruct (size (delete (fifoIdx e) (entries te)) =? 0)%nat;
    [|injection E4 as <-; reflexivity].
  destruct (checkDeleteTopic math_Exp now (topic e) t3) as [t5|] eqn:E5;
    [|discriminate].
  cbn [mbind option_bind] in E4.
  destruct (rqObjs t5 !! rqItem te) as [it|]; [|discriminate].
  cbn [mbind option_bind] in E4.
  destruct (heap_Remove (index it) t5) as [[lq t6]|] eqn:E6; [|discriminate].
  cbn in E4. injection E4 as <-.
  unfold wclAt. erewrite heap_Remove_objs by eassumption.
  erewrite checkDeleteTopic_objs by eassumption. reflexivity.
Qed.

Lemma leastRequested_wclAt t oe t' l :
  leastRequested t = Some (oe, t') -> wclAt t' l = wclAt t l.
Proof.
  unfold leastRequested. intros H.
  destruct (popStale (heapFuel t) t) as [t1|] eqn:Hp; [|discriminate].
  apply popStale_objs in Hp. cbn [mbind option_bind] in H.
  assert (H1 : wclAt t1 l = wclAt t l) by (unfold wclAt; rewrite Hp; reflexivity).
  rewrite <- H1.
  destruct (requested t1) as [|l0 rest];
    [cbv beta iota in H; injection H as <- <-; reflexivity|].
  cbv beta iota in H.
  destruct (rqObjs t1 !! l0) as [it|]; [|discriminate].
  cbn [mbind option_bind] in H.
  destruct (topics t1 !! rq_topic it) as [lt|]; [|discriminate].
  cbn [mbind option_bind] in H.
  destruct (getFifoTail lt t1) as [[e t2]|] eqn:E; [|discriminate].
  cbn [mbind option_bind] in H. injection H as <- <-.
  eapply getFifoTail_wclAt. exact E.
Qed.

(** The control loop of a topic before a registration: the one of its
    record, or the zero value of a record that is yet to be made. *)
Definition wclBefore (t : TopicTable) (tp : Topic) : option waitControlLoop :=
  match topics t !! tp with
  | Some l => wclAt t l
  | None => Some {| lastIncoming := 0; waitPeriod := 0 |}
  end.

Lemma getOrNewTopic_wcl tp t lt t1 te1 :
  getOrNewTopic tp t = Some (lt, t1) ->
  topicObjs t1 !! lt = Some te1 ->
  wclBefore t tp = Some (wcl te1).
Proof.
  unfold getOrNewTopic, wclBefore, wclAt, alloc. intros H Hte.
  destruct (topics t !! tp) as [l|].
  - injection H as <- <-. rewrite Hte. reflexivity.
  - destruct (heap_Push _ _) as [t6|] eqn:E; [|discriminate].
    cbn [mbind option_bind] in H. injection H as <- <-.
    erewrite heap_Push_objs in Hte by eassumption.
    cbn in Hte. rewrite lookup_insert_eq in Hte. injection Hte as <-.
    reflexivity.
Qed.

(** The product that [nextWaitPeriod] forms in [float64] and converts to
    [uint64]. *)
Definition scaledWait (exp : float -> float) (w : waitControlLoop) (tm : Z) : Z :=
  F64.to_uint64
    (F64.of_uint (waitPeriod w)
     * exp ((F64.of_uint wcTargetRegInterval
             - F64.of_uint (u64 (tm - lastIncoming w)))
            / F64.of_uint wcTimeConst))%float.

(** What the registration of [tp] at time [tm] does to the control loop of
    the topic. *)
Definition registeredAt (exp : float -> float) (tm : Z) (nd : Node)
  (tp : Topic) (t t' : TopicTable) : Prop :=
  exists lt w0 te' idx,
    wclBefore t tp = Some w0 /\
    (forall l, topics t !! tp = Some l -> l = lt) /\
    topicObjs t' !! lt = Some te' /\
    (exists e, entries te' !! idx = Some e /\ topic e = tp /\ node e = nd) /\
    waitPeriod (wcl te') = Z.max minWaitPeriod (scaledWait exp w0 tm) /\
    lastIncoming (wcl te') = tm /\
    wcTargetRegInterval = 12 * second /\
    wcTimeConst = 10 * minute /\
    minWaitPeriod = minute.


(** **** Two calls of [useTicket] in succession *)

Lemma collectNodes_gc now nds : forall t t',
  collectNodes math_Exp now nds t = Some t' ->
  lastGarbageCollection t' = lastGarbageCollection t.
Proof.
  induction nds as [|[nd ln] nds IH]; intros t t' H; cbn [collectNodes] in H.
  - inv_opt. reflexivity.
  - destruct (collectNode math_Exp now nd ln t) as [t1|] eqn:E; [|discriminate].
    cbn [mbind option_bind] in H. erewrite IH by eassumption.
    unfold collectNode in E. inv_opt.
    erewrite checkDeleteNode_gc by eassumption.
    erewrite deleteEntries_gc by eassumption. reflexivity.
Qed.

Lemma checkDeleteTopics_gc now tps : forall t t',
  checkDeleteTopics math_Exp now tps t = Some t' ->
  lastGarbageCollection t' = lastGarbageCollection t.
Proof.
  induction tps as [|tp tps IH]; intros t t' H; cbn [checkDeleteTopics] in H.
  - inv_opt. reflexivity.
  - inv_opt. erewrite IH by eassumption.
    erewrite checkDeleteTopic_gc by eassumption. reflexivity.
Qed.

(** Right after a garbage collection at [now], or after one that was not
    yet due, the next one at [now] is not due. *)
Lemma collectGarbage_settled now t t' :
  collectGarbage math_Exp now t = Some t' ->
  (u64 (now - lastGarbageCollection t') <? gcInterval) = true.
Proof.
  unfold collectGarbage. intros H.
  destruct (u64 (now - lastGarbageCollection t) <? gcInterval) eqn:E.
  - injection H as <-. exact E.
  - destruct (collectNodes math_Exp now _ _) as [t2|] eqn:E2; [|discriminate].
    cbn [mbind option_bind] in H.
    erewrite checkDeleteTopics_gc by eassumption.
    erewrite collectNodes_gc by eassumption.
    cbn. rewrite Z.sub_diag. reflexivity.
Qed.

Lemma collectGarbage_idle now t :
  (u64 (now - lastGarbageCollection t) <? gcInterval) = true ->
  collectGarbage math_Exp now t = Some t.
Proof. intros H. unfold collectGarbage. rewrite H. reflexivity. Qed.

Lemma afterSerial_gc nd ln n serialNo t :
  lastGarbageCollection (afterSerial nd ln n serialNo t)
  = lastGarbageCollection t.
Proof. unfold afterSerial. destruct (serialNo =? lastUsedTicket n); reflexivity. Qed.

(** When every topic in the window already has an entry in the node's
    record, [regTopics] stays empty. *)
Lemma regTopicsLoop_blocked c n0 n tps ws : forall i r0,
  regTopicsLoop c n0 tps i ws = Some r0 ->
  (forall j w tp, ws !! j = Some w -> tps !! (i + j)%nat = Some tp ->
                  inWindow c w = true -> is_Some (n_entries n !! tp)) ->
  regTopicsLoop c n tps i ws = Some [].
Proof.
  induction ws as [|w ws IH]; intros i r0 Hr0 Hall; [reflexivity|].
  cbn [regTopicsLoop] in *.
  assert (IH' : forall r, regTopicsLoop c n0 tps (S i) ws = Some r ->
                          regTopicsLoop c n tps (S i) ws = Some []).
  { intros r Hr. apply (IH (S i) r Hr). intros j w' tp Hj Htp Hw.
    apply (Hall (S j) w' tp); [exact Hj| |exact Hw].
    rewrite Nat.add_succ_r. exact Htp. }
  destruct (inWindow c w) eqn:Hw.
  - destruct (tps !! i) as [tp|] eqn:Htp; [|discriminate].
    cbn [mbind option_bind] in *.
    destruct (regTopicsLoop c n0 tps (S i) ws) as [rest|]; [|discriminate].
    rewrite (IH' rest eq_refl). cbn [mbind option_bind].
    destruct (Hall 0%nat w tp eq_refl) as [x Hx];
      [rewrite Nat.add_0_r; exact Htp|exact Hw|].
    rewrite Hx. reflexivity.
  - eapply IH'. exact Hr0.
Qed.

(** A repeated call of [useTicket] that returns [false] and changes no entry. *)
Definition registersNothing (math_Exp : float -> float) (now : Z) (e' : float) (nd : Node)
  (serialNo : Z) (tps : list Topic) (ws : list Z) (expiry : Z)
  (t1 : TopicTable) (ln : loc) (n1 : nodeInfo) : Prop :=
  exists t2,
    useTicket math_Exp now e' nd serialNo tps ws expiry t1 = Some (false, t2) /\
    topics t2 = topics t1 /\ topicObjs t2 = topicObjs t1 /\
    globalEntries t2 = globalEntries t1 /\ nodes t2 = nodes t1 /\
    exists n2, nodeObjs t2 !! ln = Some n2 /\ n_entries n2 = n_entries n1.


End TableFacts.

(** *** Running the model

    To run the table on concrete inputs [math.Exp] has to be a function
    that computes. [exp_ref] evaluates the exponential series after a range
    reduction; it is a numerical stand-in, accurate to a few units in the
    last place on the arguments that occur here, and the runs below only
    rely on its value being below 1 on negative arguments, 1 at zero and
    above 1 on positive ones. *)
Definition exp_ref (x : float) : float :=
  if PrimFloat.ltb x (-745) then 0%float
  else if PrimFloat.ltb 709 x then infinity
  else
    let y := (x / 1024)%float in
    let s :=
      (1 + y * (1 + y / 2 * (1 + y / 3 * (1 + y / 4 * (1 + y / 5 *
       (1 + y / 6 * (1 + y / 7 * (1 + y / 8 * (1 + y / 9 * (1 + y / 10 *
       (1 + y / 11 * (1 + y / 12))))))))))))%float in
    Nat.iter 10 (fun r => (r * r)%float) s.

(** The sum over the topics of the table of their entry counts. *)
Definition topicEntryCount (t : TopicTable) (l : loc) : Z :=
  match topicObjs t !! l with
  | Some ti => Z.of_nat (size (entries ti))
  | None => 0
  end.

Definition topicEntrySum (t : TopicTable) : Z :=
  map_fold (fun _ l acc => acc + topicEntryCount t l) 0 (topics t).

(** The invariant of the table's entry counts. *)
Definition countsOk (t : TopicTable) : Prop :=
  map_Forall (fun _ l => topicEntryCount t l <= MaxEntriesPerTopic) (topics t)
  /\ globalEntries t = topicEntrySum t
  /\ globalEntries t <= MaxEntries.

(** Topic names [t0], [t1], ... *)
Definition topicName (i : nat) : Topic := "t" +:+ pretty i.
Definition topicNames (lo n : nat) : list Topic := topicName <$> seq lo n.

(** Fifty advertisements at second 1000 that fill the table: node 1
    registers [t0 .. t199], the nodes 2 to 50 register [t1 .. t200]. *)
Definition fillTable : option TopicTable :=
  t1 ← AddEntries exp_ref (1000 * second) 1%positive (topicNames 0 200)
         (3600 * second) (NewTopicTable ∅);
  foldl (fun acc i =>
           t ← acc;
           AddEntries exp_ref (1000 * second) (Pos.of_nat i)
             (topicNames 1 200) (3600 * second) t)
        (Some t1) (seq 2 49).

(** Thirteen seconds later node 51 registers [t0]. *)
Definition overfullTable : option TopicTable :=
  t ← fillTable;
  AddEntries exp_ref (1013 * second) 51%positive [topicName 0]
    (3600 * second) t.

Lemma overfullTable_counts :
  (t ← fillTable; Some (globalEntries t, topicEntrySum t)) = Some (10000, 10000)
  /\ (t ← overfullTable; Some (globalEntries t, topicEntrySum t))
     = Some (10000, 9999)
  /\ (t ← overfullTable; Some (topics t !! topicName 0)) = Some None.
Proof. vm_compute. repeat split; reflexivity. Qed.

(** C3 fails on the code. After the fifty advertisements the table is full
    and consistent, with [t0] holding one entry at the front of the request
    queue. The next advertisement for [t0] evicts that entry through
    [leastRequested]; the emptied topic is dropped from [topics] while
    [AddEntries] still holds its [topicInfo], and the new entry is stored in
    that dropped object. [globalEntries] is [10000] and the topics of the table
    hold [9999] entries. *)
Theorem AddEntries_breaks_count :
  exists t, overfullTable = Some t /\
            globalEntries t = 10000 /\ topicEntrySum t = 9999 /\
            ~ countsOk t.
Proof.
  destruct overfullTable_counts as (_ & H & _).
  destruct overfullTable as [t|]; [|discriminate].
  cbn in H. injection H as Hg Hs.
  exists t. split; [reflexivity|]. split; [exact Hg|]. split; [exact Hs|].
  intros (_ & Heq & _). lia.
Qed.

(** *** A first registration *)

(** An empty table with a record for node 1 at location 1. *)
Definition tableWithNode : TopicTable :=
  (getOrNewNode 1%positive (NewTopicTable ∅)).2.

Definition firstRegistration : TopicTable :=
  default (NewTopicTable ∅)
    (addEntry exp_ref (1000 * second) 1%positive 1%positive (3600 * second)
       "foo" tableWithNode).


(** *** Runs of [useTicket] and [getTicket] on a single node *)

Definition nodeA : Node := 1%positive.

(** [useTicket] for [nodeA] at second [now], with an expiry of one hour
    and the value 1 drawn for [noTicketTimeout]. *)
Definition useTicketAt (now serialNo : Z) (tps : list Topic) (ws : list Z)
  (t : TopicTable) : option (bool * TopicTable) :=
  useTicket exp_ref (now * second) 1%float nodeA serialNo tps ws
    (3600 * second) t.

Definition tableOf (r : option (bool * TopicTable)) : TopicTable :=
  match r with
  | Some (_, t) => t
  | None => NewTopicTable ∅
  end.

(** The counters of a node as its record and the node database hold
    them. *)
Definition countersOf (nd : Node) (t : TopicTable)
  : option (Z * Z) * option (Z * Z) :=
  (ln ← nodes t !! nd; n ← nodeObjs t !! ln;
   Some (lastIssuedTicket n, lastUsedTicket n),
   db t !! nd).

(** The topics for which the record of a node holds an entry. *)
Definition activeTopics (nd : Node) (t : TopicTable) : option (list Topic) :=
  ln ← nodes t !! nd; n ← nodeObjs t !! ln;
  Some (fst <$> map_to_list (n_entries n)).

(** A ticket with serial number 5 whose wait period lies far outside the
    window, presented to an empty table. *)
Definition staleTicket : option (bool * TopicTable) :=
  useTicketAt 1000 5 ["foo"] [0] (NewTopicTable ∅).

Lemma useTicket_false_state_witness :
  rejected exp_ref (1000 * second) nodeA 5 (NewTopicTable ∅)
    (tableOf staleTicket).
Proof.
  apply (useTicket_false_state exp_ref (1000 * second) 1%float nodeA 5
           ["foo"] [0] (3600 * second)).
  vm_compute. reflexivity.
Defined.

(** C2, as stated, fails: the call returns [false], yet the serial number
    has become [lastUsedTicket] in the record of the node and in the node
    database. *)
Lemma useTicket_false_counters_counterexample :
  fst <$> staleTicket = Some false /\
  countersOf nodeA (tableOf staleTicket) = (Some (0, 5), Some (0, 5)) /\
  db (NewTopicTable ∅) !! nodeA = None.
Proof. vm_compute. repeat split; reflexivity. Qed.

(** A ticket whose wait period is eleven seconds old. *)
Definition elevenSeconds : option (bool * TopicTable) :=
  useTicketAt 1000 1 ["foo"] [989] (NewTopicTable ∅).

Lemma useTicket_admits_witness :
  admission exp_ref (1000 * second) nodeA 1 ["foo"] [989] (3600 * second)
    (NewTopicTable ∅) true.
Proof.
  apply (useTicket_admits exp_ref (1000 * second) 1%float nodeA 1
           ["foo"] [989] (3600 * second) (NewTopicTable ∅) true
           (tableOf elevenSeconds)).
  vm_compute. reflexivity.
Defined.

(** C5, as stated, fails: a wait period of [currTime - 11] is admitted and
    registered; the first one refused is [currTime - 12]. And a topic in
    the window without an active entry is not admitted when the serial
    number lies below [lastUsedTicket]. *)
Lemma useTicket_eleven_seconds_counterexample :
  fst <$> elevenSeconds = Some true /\
  activeTopics nodeA (tableOf elevenSeconds) = Some ["foo"] /\
  fst <$> useTicketAt 1000 1 ["foo"] [990] (NewTopicTable ∅) = Some true /\
  fst <$> useTicketAt 1000 1 ["foo"] [988] (NewTopicTable ∅) = Some false /\
  fst <$> useTicketAt 1000 1 ["bar"] [1000] (tableOf staleTicket) = Some false.
Proof. vm_compute. repeat split; reflexivity. Qed.

(** [nodeA] registers [bar] at second 1000; its [noTicketUntil] is then
    second 1600. *)
Definition barRegistered : TopicTable :=
  tableOf (useTicketAt 1000 1 ["bar"] [1000] (NewTopicTable ∅)).

Definition ticketAt (now : Z) : option ((Z * Z * option (list Z)) * TopicTable) :=
  getTicket exp_ref (now * second) nodeA ["bar"; "baz"] barRegistered.

Definition ticketTable (now : Z) : TopicTable :=
  match ticketAt now with
  | Some (_, t) => t
  | None => NewTopicTable ∅
  end.

Lemma getTicket_result_witness :
  ticketResult exp_ref (1700 * second) nodeA ["bar"; "baz"] barRegistered
    (1, 1700, Some [1760; 1760]) (ticketTable 1700).
Proof.
  apply (getTicket_result exp_ref (1700 * second) nodeA ["bar"; "baz"]
           barRegistered).
  vm_compute. reflexivity.
Defined.

(** C7, as stated, fails: while [noTicketUntil] lies ahead the serial
    number is zero and there are no wait times, but the returned current
    time is the clock reading, here 1002 seconds. *)
Lemma getTicket_currTime_counterexample :
  fst <$> ticketAt 1002 = Some (0, 1002, None) /\
  countersOf nodeA (ticketTable 1002) = countersOf nodeA barRegistered.
Proof. vm_compute. repeat split; reflexivity. Qed.

(** With [bar] registered, [nodeA] presents a ticket for [foo] and [bar],
    both in the window, twice at second 1005. *)
Definition firstUse : option (bool * TopicTable) :=
  useTicketAt 1005 2 ["foo"; "bar"] [1005; 1005] barRegistered.

Definition secondUse : option (bool * TopicTable) :=
  useTicketAt 1005 2 ["foo"; "bar"] [1005; 1005] (tableOf firstUse).



End Topics.

(** ** Tickets on the client side (p2p/discover/ticket.go) *)

Module Tickets.

Definition Topic := string.

Definition second : Z := 1000000000.
Definition minute : Z := 60 * second.

Definition ticketTimeBucketLen : Z := minute.
Definition timeWindow : Z := 30.
Definition keepTicketConst : Z := minute * 10.
Definition keepTicketExp : Z := minute * 5.
Definition maxRadius : Z := 18446744073709551615.   (* 0xffffffffffffffff *)
Definition minRadAverage : Z := 100.
Definition minRadStableAfter : Z := 50.
Definition targetWaitTime : Z := minute * 10.
Definition adjustRatio : float := 0x1.0624dd2f1a9fcp-9.          (* 0.002 *)
Definition adjustCooldownStart : float := 0x1.999999999999ap-4.  (* 0.1 *)
Definition adjustCooldownKeep : float := 0x1.fae147ae147aep-1.
  (* the constant [1 - adjustCooldownStep], 0.99 *)
Definition radiusExtendRatio : float := 0x1.8p+0.                (* 1.5 *)
Definition maxRadiusF : float := 0x1p+64.         (* float64(maxRadius) *)

(** Signed 64-bit wrap-around ([absTime], [timeBucket], [int]). *)
Definition i64 (z : Z) : Z := (z + 2 ^ 63) mod 2 ^ 64 - 2 ^ 63.

(** Go's [float64(x)] of a signed integer. *)
Definition of_int (z : Z) : float :=
  if z <? 0 then (- F64.of_uint (- z))%float else F64.of_uint z.

(** Modelled from the spec: [Node] is declared elsewhere in the package.
    Of a [*Node] the store uses the pointer, as map key, and the first
    eight bytes of [sha] read as a big-endian [uint64]. *)
Record Node := { nptr : positive; shaPrefix : Z }.

Record ticket := {
  topics : list Topic;
  regTime : list Z;
  serial : Z;
  issueTime : Z;
  node : Node;
  refCnt : Z;
  pong : list Byte.byte
}.

Record topicRadius := {
  r_topic : Topic;
  topicHashPrefix : Z;
  radius : Z;
  adjustCooldown : float;
  converged : bool;
  intExtBalance : float
}.

(** [newTopicRadius]; [prefix] is the first eight bytes of the Keccak256
    hash of the topic, which the caller supplies. *)
Definition newTopicRadius (t : Topic) (prefix : Z) : topicRadius :=
  {| r_topic := t; topicHashPrefix := prefix; radius := maxRadius;
     adjustCooldown := adjustCooldownStart; converged := false;
     intExtBalance := 0 |}.

Definition isInRadius (r : topicRadius) (t : ticket) (extRadius : bool) : bool :=
  let nodePrefix := shaPrefix (node t) in
  let dist := Z.lxor nodePrefix (topicHashPrefix r) in
  if extRadius
  then PrimFloat.ltb (F64.of_uint dist)
                     (F64.of_uint (radius r) * radiusExtendRatio)
  else dist <? radius r.

(** [topicRadius.adjust] for the ticket [t] and the index [idx] of the
    topic in it; [None] is the panic of an index out of range. *)
Definition adjust (t : ticket) (idx : nat) (minRadius : Z)
  (minRadStable : bool) (r : topicRadius) : option topicRadius :=
  let inside := isInRadius r t false in
  let balanceStep := if inside then (radiusExtendRatio - 1)%float
                     else (-1)%float in
  let stepSign := if inside then 1%float else (-1)%float in
  if PrimFloat.ltb 3 (intExtBalance r * stepSign) then Some r
  else
    let balance := (intExtBalance r + balanceStep)%float in
    rt ← regTime t !! idx;
    let wait := i64 (rt - issueTime t) in
    let adjust0 := if targetWaitTime <? wait then 1%float else (-1)%float in
    let adjust1 := if converged r then (adjust0 * adjustRatio)%float
                   else (adjust0 * adjustCooldown r)%float in
    let radiusF := (F64.of_uint (radius r) * (1 + adjust1))%float in
    let radius' :=
      if PrimFloat.ltb maxRadiusF radiusF then maxRadius
      else
        let v := F64.to_uint64 radiusF in
        if v <? minRadius then minRadius else v in
    let cool :=
      negb (converged r) &&
      (PrimFloat.ltb 0 adjust1 || ((radius' =? minRadius) && minRadStable)) in
    let cooldown' := if cool then (adjustCooldown r * adjustCooldownKeep)%float
                     else adjustCooldown r in
    let converged' := if cool then (converged r || PrimFloat.leb cooldown' adjustRatio)
                      else converged r in
    Some {| r_topic := r_topic r; topicHashPrefix := topicHashPrefix r;
            radius := radius'; adjustCooldown := cooldown';
            converged := converged'; intExtBalance := balance |}.

(** *** Facts about [adjust] *)

(** The sign and the size of the step of [adjust], and the radius they
    give. *)
Definition stepSignOf (t : ticket) (rt : Z) : float :=
  if targetWaitTime <? i64 (rt - issueTime t) then 1%float else (-1)%float.

Definition stepSizeOf (r : topicRadius) : float :=
  if converged r then adjustRatio else adjustCooldown r.

Definition scaledRadius (r : topicRadius) (t : ticket) (rt : Z) : float :=
  (F64.of_uint (radius r) * (1 + stepSignOf t rt * stepSizeOf r))%float.

Definition balanceSignOf (r : topicRadius) (t : ticket) : float :=
  if isInRadius r t false then 1%float else (-1)%float.

Definition adjusted (t : ticket) (idx : nat) (minRadius : Z)
  (r r' : topicRadius) : Prop :=
  (PrimFloat.ltb 3 (intExtBalance r * balanceSignOf r t) = true -> r' = r) /\
  (PrimFloat.ltb 3 (intExtBalance r * balanceSignOf r t) = false ->
   exists rt,
     regTime t !! idx = Some rt /\
     radius r' =
       (if PrimFloat.ltb maxRadiusF (scaledRadius r t rt) then maxRadius
        else Z.max minRadius (F64.to_uint64 (scaledRadius r t rt))) /\
     intExtBalance r' =
       (intExtBalance r
        + (if isInRadius r t false then 0x1p-1 else -1))%float).

(** C4 (as the code has it). [adjust] multiplies the radius by
    [1 + sign * step] and clamps the result to [[minRadius, maxRadius]].
    The sign is [+1] when the wait of the ticket for the topic,
    [regTime - issueTime], exceeds [targetWaitTime], and [-1] otherwise;
    the step is [adjustRatio] once the topic is converged and the current
    [adjustCooldown] before. Whether the issuing node lies inside the
    radius decides the step of [intExtBalance] only, and [adjust] changes
    nothing when [intExtBalance] is beyond 3 on that side. *)
Theorem adjust_step t idx minRadius minRadStable r r' :
  adjust t idx minRadius minRadStable r = Some r' ->
  adjusted t idx minRadius r r'.
Proof.
  unfold adjust, adjusted, balanceSignOf. cbv zeta.
  destruct (isInRadius r t false); intros H;
    (destruct (PrimFloat.ltb 3 _) eqn:Hb;
     [injection H as <-; split; [reflexivity|discriminate]|];
     split; [discriminate|]; intros _;
     destruct (regTime t !! idx) as [rt|]; [|discriminate];
     cbn [mbind option_bind] in H; injection H as <-;
     exists rt; split; [reflexivity|];
     cbn [radius intExtBalance]; split; [|reflexivity];
     unfold scaledRadius, stepSignOf, stepSizeOf;
     destruct (converged r);
       (destruct (PrimFloat.ltb maxRadiusF _); [reflexivity|];
        destruct (_ <? minRadius) eqn:E;
          [apply Z.ltb_lt in E|apply Z.ltb_ge in E]; lia)).
Qed.

(** A topic radius of one million around prefix 0, not yet converged. *)
Definition radius0 : topicRadius :=
  {| r_topic := "foo"; topicHashPrefix := 0; radius := 1000000;
     adjustCooldown := adjustCooldownStart; converged := false;
     intExtBalance := 0 |}.

(** A ticket of a node at distance [prefix] from the topic, issued at
    time 0 with a wait of [wait] seconds. *)
Definition ticketFrom (prefix wait : Z) : ticket :=
  {| topics := ["foo"]; regTime := [wait * second]; serial := 1;
     issueTime := 0; node := {| nptr := 1; shaPrefix := prefix |};
     refCnt := 0; pong := [] |}.

Definition radiusAfter (t : ticket) : option Z :=
  radius <$> adjust t 0 0 false radius0.

Lemma adjust_step_witness :
  adjusted (ticketFrom 5 60) 0 0 radius0
    {| r_topic := "foo"; topicHashPrefix := 0; radius := 900000;
       adjustCooldown := adjustCooldownStart; converged := false;
       intExtBalance := 0x1p-1 |}.
Proof.
  apply (adjust_step (ticketFrom 5 60) 0 0 false radius0).
  vm_compute. reflexivity.
Defined.

(** The same radius with [intExtBalance] beyond 3. *)
Definition radiusBalanced : topicRadius :=
  {| r_topic := "foo"; topicHashPrefix := 0; radius := 1000000;
     adjustCooldown := adjustCooldownStart; converged := false;
     intExtBalance := 0x1.cp+1 |}.

(** C4, as stated, fails: a ticket from a node inside the radius with a
    wait of one minute shrinks the radius, and a ticket from a node outside
    the radius with a wait of twenty minutes grows it. With [intExtBalance]
    at 3.5 a ticket from inside leaves the radius as it is, and the radius
    of a new topic, [maxRadius], does not grow. *)
Lemma adjust_sign_counterexample :
  isInRadius radius0 (ticketFrom 5 60) false = true /\
  radiusAfter (ticketFrom 5 60) = Some 900000 /\
  isInRadius radius0 (ticketFrom 2000000 1200) false = false /\
  radiusAfter (ticketFrom 2000000 1200) = Some 1100000 /\
  radius <$> adjust (ticketFrom 5 1200) 0 0 false radiusBalanced
    = Some 1000000 /\
  radius <$> adjust (ticketFrom 5 1200) 0 0 false (newTopicRadius "foo" 0)
    = Some maxRadius.
Proof. vm_compute. repeat split; reflexivity. Qed.

End Tickets.

(** ** The ticket store (p2p/discover/ticket.go) *)

Module Store.

Import Tickets.

(** Locations of the tickets; the store shares a ticket between the
    references to it and counts them in [refCnt]. *)
Definition loc := positive.

(** A [ticketRef]: the ticket and the index of the topic in it. *)
Definition ticketRef : Type := loc * nat.

Record reqInfo := { pingHash : list Byte.byte; rq_topic : Topic }.

(** The store; [heap] holds the tickets behind the pointers and
    [nextTicket] is the next free location. The log channel is left out. *)
Record ticketStore := {
  radius : gmap Topic topicRadius;
  tickets : gmap Topic (gmap Z (list ticketRef));
  regtopics : list Topic;
  nodes : gmap positive loc;
  nodeLastReq : gmap positive reqInfo;
  lastBucketFetched : Z;
  nextTicketCached : option ticketRef;
  minRadCnt : Z;
  minRadPtr : Z;
  minRadius : Z;
  minRadSum : Z;
  lastMinRads : list Z;
  heap : gmap loc ticket;
  nextTicket : loc
}.

Definition newTicketStore : ticketStore :=
  {| radius := ∅; tickets := ∅; regtopics := []; nodes := ∅;
     nodeLastReq := ∅; lastBucketFetched := 0; nextTicketCached := None;
     minRadCnt := 0; minRadPtr := 0; minRadius := 0; minRadSum := 0;
     lastMinRads := replicate 100 0; heap := ∅; nextTicket := 1%positive |}.

(** Field updates. *)
Definition set_radius v (s : ticketStore) : ticketStore :=
  {| radius := v; tickets := tickets s; regtopics := regtopics s; nodes :=
     nodes s; nodeLastReq := nodeLastReq s; lastBucketFetched :=
     lastBucketFetched s; nextTicketCached := nextTicketCached s;
     minRadCnt := minRadCnt s; minRadPtr := minRadPtr s; minRadius :=
     minRadius s; minRadSum := minRadSum s; lastMinRads := lastMinRads s;
     heap := heap s; nextTicket := nextTicket s |}.
Definition set_tickets v (s : ticketStore) : ticketStore :=
  {| radius := radius s; tickets := v; regtopics := regtopics s; nodes :=
     nodes s; nodeLastReq := nodeLastReq s; lastBucketFetched :=
     lastBucketFetched s; nextTicketCached := nextTicketCached s;
     minRadCnt := minRadCnt s; minRadPtr := minRadPtr s; minRadius :=
     minRadius s; minRadSum := minRadSum s; lastMinRads := lastMinRads s;
     heap := heap s; nextTicket := nextTicket s |}.
Definition set_nodes v (s : ticketStore) : ticketStore :=
  {| radius := radius s; tickets := tickets s; regtopics := regtopics s;
     nodes := v; nodeLastReq := nodeLastReq s; lastBucketFetched :=
     lastBucketFetched s; nextTicketCached := nextTicketCached s;
     minRadCnt := minRadCnt s; minRadPtr := minRadPtr s; minRadius :=
     minRadius s; minRadSum := minRadSum s; lastMinRads := lastMinRads s;
     heap := heap s; nextTicket := nextTicket s |}.
Definition set_nodeLastReq v (s : ticketStore) : ticketStore :=
  {| radius := radius s; tickets := tickets s; regtopics := regtopics s;
     nodes := nodes s; nodeLastReq := v; lastBucketFetched :=
     lastBucketFetched s; nextTicketCached := nextTicketCached s;
     minRadCnt := minRadCnt s; minRadPtr := minRadPtr s; minRadius :=
     minRadius s; minRadSum := minRadSum s; lastMinRads := lastMinRads s;
     heap := heap s; nextTicket := nextTicket s |}.
Definition set_lastBucketFetched v (s : ticketStore) : ticketStore :=
  {| radius := radius s; tickets := tickets s; regtopics := regtopics s;
     nodes := nodes s; nodeLastReq := nodeLastReq s; lastBucketFetched :=
     v; nextTicketCached := nextTicketCached s; minRadCnt := minRadCnt s;
     minRadPtr := minRadPtr s; minRadius := minRadius s; minRadSum :=
     minRadSum s; lastMinRads := lastMinRads s; heap := heap s; nextTicket
     := nextTicket s |}.
Definition set_nextTicketCached v (s : ticketStore) : ticketStore :=
  {| radius := radius s; tickets := tickets s; regtopics := regtopics s;
     nodes := nodes s; nodeLastReq := nodeLastReq s; lastBucketFetched :=
     lastBucketFetched s; nextTicketCached := v; minRadCnt := minRadCnt s;
     minRadPtr := minRadPtr s; minRadius := minRadius s; minRadSum :=
     minRadSum s; lastMinRads := lastMinRads s; heap := heap s; nextTicket
     := nextTicket s |}.
Definition set_minRadCnt v (s : ticketStore) : ticketStore :=
  {| radius := radius s; tickets := tickets s; regtopics := regtopics s;
     nodes := nodes s; nodeLastReq := nodeLastReq s; lastBucketFetched :=
     lastBucketFetched s; nextTicketCached := nextTicketCached s;
     minRadCnt := v; minRadPtr := minRadPtr s; minRadius := minRadius s;
     minRadSum := minRadSum s; lastMinRads := lastMinRads s; heap := heap
     s; nextTicket := nextTicket s |}.
Definition set_minRadPtr v (s : ticketStore) : ticketStore :=
  {| radius := radius s; tickets := tickets s; regtopics := regtopics s;
     nodes := nodes s; nodeLastReq := nodeLastReq s; lastBucketFetched :=
     lastBucketFetched s; nextTicketCached := nextTicketCached s;
     minRadCnt := minRadCnt s; minRadPtr := v; minRadius := minRadius s;
     minRadSum := minRadSum s; lastMinRads := lastMinRads s; heap := heap
     s; nextTicket := nextTicket s |}.
Definition set_minRadius v (s : ticketStore) : ticketStore :=
  {| radius := radius s; tickets := tickets s; regtopics := regtopics s;
     nodes := nodes s; nodeLastReq := nodeLastReq s; lastBucketFetched :=
     lastBucketFetched s; nextTicketCached := nextTicketCached s;
     minRadCnt := minRadCnt s; minRadPtr := minRadPtr s; minRadius := v;
     minRadSum := minRadSum s; lastMinRads := lastMinRads s; heap := heap
     s; nextTicket := nextTicket s |}.
Definition set_minRadSum v (s : ticketStore) : ticketStore :=
  {| radius := radius s; tickets := tickets s; regtopics := regtopics s;
     nodes := nodes s; nodeLastReq := nodeLastReq s; lastBucketFetched :=
     lastBucketFetched s; nextTicketCached := nextTicketCached s;
     minRadCnt := minRadCnt s; minRadPtr := minRadPtr s; minRadius :=
     minRadius s; minRadSum := v; lastMinRads := lastMinRads s; heap :=
     heap s; nextTicket := nextTicket s |}.
Definition set_lastMinRads v (s : ticketStore) : ticketStore :=
  {| radius := radius s; tickets := tickets s; regtopics := regtopics s;
     nodes := nodes s; nodeLastReq := nodeLastReq s; lastBucketFetched :=
     lastBucketFetched s; nextTicketCached := nextTicketCached s;
     minRadCnt := minRadCnt s; minRadPtr := minRadPtr s; minRadius :=
     minRadius s; minRadSum := minRadSum s; lastMinRads := v; heap := heap
     s; nextTicket := nextTicket s |}.
Definition set_heap v (s : ticketStore) : ticketStore :=
  {| radius := radius s; tickets := tickets s; regtopics := regtopics s;
     nodes := nodes s; nodeLastReq := nodeLastReq s; lastBucketFetched :=
     lastBucketFetched s; nextTicketCached := nextTicketCached s;
     minRadCnt := minRadCnt s; minRadPtr := minRadPtr s; minRadius :=
     minRadius s; minRadSum := minRadSum s; lastMinRads := lastMinRads s;
     heap := v; nextTicket := nextTicket s |}.
Definition set_nextTicket v (s : ticketStore) : ticketStore :=
  {| radius := radius s; tickets := tickets s; regtopics := regtopics s;
     nodes := nodes s; nodeLastReq := nodeLastReq s; lastBucketFetched :=
     lastBucketFetched s; nextTicketCached := nextTicketCached s;
     minRadCnt := minRadCnt s; minRadPtr := minRadPtr s; minRadius :=
     minRadius s; minRadSum := minRadSum s; lastMinRads := lastMinRads s;
     heap := heap s; nextTicket := v |}.

(** [bytes.Equal]. *)
Fixpoint bytesEqual (a b : list Byte.byte) : bool :=
  match a, b with
  | [], [] => true
  | x :: a', y :: b' => Byte.eqb x y && bytesEqual a' b'
  | _, _ => false
  end.

(** [ticket.findIdx]; [None] is the result [-1]. *)
Fixpoint findIdxFrom (i : nat) (tps : list Topic) (tp : Topic) : option nat :=
  match tps with
  | [] => None
  | tks :: rest =>
      if bool_decide (tks = tp) then Some i else findIdxFrom (S i) rest tp
  end.

Definition findIdx (t : ticket) (tp : Topic) : option nat :=
  findIdxFrom 0 (topics t) tp.

(** [timeBucket(tm / absTime(ticketTimeBucketLen))]. *)
Definition bucketOf (tm : Z) : Z := Z.quot tm ticketTimeBucketLen.

(** [ref.topicRegTime()] and [ref.topic()]; [None] is a panic. *)
Definition topicRegTime (s : ticketStore) (ref : ticketRef) : option Z :=
  t ← heap s !! ref.1; regTime t !! ref.2.

Definition refTopic (s : ticketStore) (ref : ticketRef) : option Topic :=
  t ← heap s !! ref.1; topics t !! ref.2.

(** [addTopic]; [prefix] is the hash prefix of the topic for
    [newTopicRadius]. *)
Definition addTopic (t : Topic) (prefix : Z) (register : bool)
  (s : ticketStore) : ticketStore :=
  let s1 := match radius s !! t with
            | None => set_radius (<[t := newTopicRadius t prefix]> (radius s)) s
            | Some _ => s
            end in
  if register
  then match tickets s1 !! t with
       | None => set_tickets (<[t := ∅]> (tickets s1)) s1
       | Some _ => s1
       end
  else s1.

(** [ref.t.refCnt--] and the removal of the ticket from the indices of
    the store when the count reaches zero. *)
Definition dropRef (ref : ticketRef) (s : ticketStore) : option ticketStore :=
  t ← heap s !! ref.1;
  let t' := {| topics := topics t; regTime := regTime t; serial := serial t;
               issueTime := issueTime t; node := node t;
               refCnt := i64 (refCnt t - 1); pong := pong t |} in
  let s1 := set_heap (<[ref.1 := t']> (heap s)) s in
  if refCnt t' =? 0
  then Some (set_nodeLastReq (delete (nptr (node t)) (nodeLastReq s1))
               (set_nodes (delete (nptr (node t)) (nodes s1)) s1))
  else Some s1.

Fixpoint dropRefs (refs : list ticketRef) (s : ticketStore)
  : option ticketStore :=
  match refs with
  | [] => Some s
  | ref :: refs' => s1 ← dropRef ref s; dropRefs refs' s1
  end.

(** [removeRegisterTopic]. *)
Definition removeRegisterTopic (tp : Topic) (s : ticketStore)
  : option ticketStore :=
  let lists := match tickets s !! tp with
               | Some tks => snd <$> map_to_list tks
               | None => []
               end in
  s1 ← dropRefs (concat lists) s;
  Some (set_tickets (delete tp (tickets s1)) s1).

(** The contribution of one queued reference to the sum of
    [needMoreTickets]. *)
Definition ticketWeight (s : ticketStore) (ref : ticketRef) : option float :=
  t ← heap s !! ref.1;
  rt ← regTime t !! ref.2;
  let l := i64 (rt - issueTime t) in
  let l := if ticketTimeBucketLen * timeWindow <? l
           then ticketTimeBucketLen * timeWindow else l in
  let l := if l <? minute then minute else l in
  Some (of_int targetWaitTime / of_int l)%float.

Fixpoint sumWeights (s : ticketStore) (refs : list ticketRef) (sum : float)
  : option float :=
  match refs with
  | [] => Some sum
  | ref :: refs' =>
      w ← ticketWeight s ref; sumWeights s refs' (sum + w)%float
  end.

Fixpoint sumBuckets (s : ticketStore) (tks : gmap Z (list ticketRef))
  (g : Z) (n : nat) (sum : float) : option float :=
  match n with
  | O => Some sum
  | S n' =>
      sum' ← sumWeights s (default [] (tks !! g)) sum;
      sumBuckets s tks (g + 1) n' sum'
  end.

(** [needMoreTickets]; [now] is the reading of [monotonicTime()]. *)
Definition needMoreTickets (now : Z) (tp : Topic) (s : ticketStore)
  : option bool :=
  let ltBucket := bucketOf now in
  sum ← sumBuckets s (default ∅ (tickets s !! tp)) ltBucket
          (Z.to_nat timeWindow) 0%float;
  Some (PrimFloat.ltb sum 10).

(** One call of [tks.adjust] on the radius of a topic. *)
Definition adjustTopic (t : ticket) (i : nat) (tp : Topic) (ext : bool)
  (onlyUnconverged : bool) (s : ticketStore) : option ticketStore :=
  match radius s !! tp with
  | Some rad =>
      if (negb onlyUnconverged || negb (converged rad)) && isInRadius rad t ext
      then rad' ← adjust t i (minRadius s)
                   (minRadStableAfter <=? minRadCnt s) rad;
           Some (set_radius (<[tp := rad']> (radius s)) s)
      else Some s
  | None => Some s
  end.

Fixpoint adjustConverging (t : ticket) (i : nat) (tps : list Topic)
  (s : ticketStore) : option ticketStore :=
  match tps with
  | [] => Some s
  | tp :: tps' =>
      s1 ← adjustTopic t i tp true true s;
      adjustConverging t (S i) tps' s1
  end.

(** [adjustWithTicket]; [idx] is only read when [onlyConverging] is
    false. *)
Definition adjustWithTicket (t : ticket) (idx : nat) (onlyConverging : bool)
  (s : ticketStore) : option ticketStore :=
  if onlyConverging then adjustConverging t 0 (topics t) s
  else tp ← topics t !! idx; adjustTopic t idx tp true false s.

(** The ticket at [p] with one more reference. *)
Definition addRef (p : loc) (s : ticketStore) : option ticketStore :=
  t ← heap s !! p;
  Some (set_heap
          (<[p := {| topics := topics t; regTime := regTime t;
                     serial := serial t; issueTime := issueTime t;
                     node := node t; refCnt := i64 (refCnt t + 1);
                     pong := pong t |}]> (heap s)) s).

(** The body of the second loop of [addTicket] for the topic at
    [topicIdx]; [rnd] is the value drawn by [rand.ExpFloat64()] there. *)
Definition keepTicket (now localTime : Z) (rnd : float) (p : loc)
  (topicIdx : nat) (tp : Topic) (s : ticketStore) : option ticketStore :=
  t ← heap s !! p;
  match radius s !! tp with
  | None => Some s
  | Some rad =>
      if negb (isInRadius rad t false) then Some s
      else
        more ← needMoreTickets now tp s;
        match tickets s !! tp with
        | None => Some s
        | Some tks =>
            if negb (more && converged rad) then Some s
            else
              rt ← regTime t !! topicIdx;
              let wait := i64 (rt - localTime) in
              let rnd := if PrimFloat.ltb 10 rnd then 10%float else rnd in
              if PrimFloat.ltb (of_int wait)
                   (of_int keepTicketConst + of_int keepTicketExp * rnd)
              then
                let bucket := bucketOf rt in
                let tks' :=
                  <[bucket := default [] (tks !! bucket) ++ [(p, topicIdx)]]>
                    tks in
                addRef p (set_tickets (<[tp := tks']> (tickets s)) s)
              else Some s
        end
  end.

Fixpoint keepTickets (now localTime : Z) (rnd : nat -> float) (p : loc)
  (i : nat) (tps : list Topic) (s : ticketStore) : option ticketStore :=
  match tps with
  | [] => Some s
  | tp :: tps' =>
      s1 ← keepTicket now localTime (rnd i) p i tp s;
      keepTickets now localTime rnd p (S i) tps' s1
  end.

(** [addTicket]. The caller hands over a new ticket [t], which is placed
    at a fresh location; [now] is the reading of the clock in
    [needMoreTickets] and [rnd i] the random value drawn for the topic at
    index [i]. *)
Definition addTicket (now localTime : Z) (rnd : nat -> float)
  (ping : list Byte.byte) (t : ticket) (s : ticketStore)
  : option ticketStore :=
  match nodes s !! nptr (node t) with
  | Some _ => Some s
  | None =>
      let matched :=
        match nodeLastReq s !! nptr (node t) with
        | Some lastReq =>
            if bytesEqual ping (pingHash lastReq) then Some lastReq else None
        | None => None
        end in
      match matched with
      | None => adjustWithTicket t 0 true s
      | Some lastReq =>
          match findIdx t (rq_topic lastReq) with
          | None => Some s
          | Some topicIdx =>
              s1 ← adjustWithTicket t topicIdx false s;
              let bucket := bucketOf localTime in
              let s2 :=
                if (lastBucketFetched s1 =? 0)
                   || (bucket <? lastBucketFetched s1)
                then set_lastBucketFetched bucket s1 else s1 in
              let p := nextTicket s2 in
              let s3 := set_nextTicket (Pos.succ p)
                          (set_heap (<[p := t]> (heap s2)) s2) in
              s4 ← keepTickets now localTime rnd p 0 (topics t) s3;
              t' ← heap s4 !! p;
              if 0 <? refCnt t'
              then Some (set_nodes (<[nptr (node t) := p]> (nodes s4))
                           (set_nextTicketCached None s4))
              else Some s4
          end
      end
  end.

(** The inner loops of [nextRegisterableTicket] for one bucket: whether
    there are no tickets at all, and the reference with the least
    registration time in the bucket. *)
Fixpoint earliest (s : ticketStore) (refs : list ticketRef)
  (best : option ticketRef) : option (option ticketRef) :=
  match refs with
  | [] => Some best
  | ref :: refs' =>
      match best with
      | None => earliest s refs' (Some ref)
      | Some b =>
          rt ← topicRegTime s ref;
          bt ← topicRegTime s b;
          earliest s refs' (if rt <? bt then Some ref else best)
      end
  end.

Fixpoint scanTopics (s : ticketStore) (bucket : Z)
  (tts : list (gmap Z (list ticketRef))) (empty : bool)
  (best : option ticketRef) : option (bool * option ticketRef) :=
  match tts with
  | [] => Some (empty, best)
  | tks :: tts' =>
      if (size tks =? 0)%nat then scanTopics s bucket tts' empty best
      else
        best' ← earliest s (default [] (tks !! bucket)) best;
        scanTopics s bucket tts' false best'
  end.

(** The loop over the buckets; [None] is a panic or the end of [fuel]. *)
Fixpoint scanBuckets (fuel : nat) (now bucket : Z) (s : ticketStore)
  : option (option (ticketRef * Z) * ticketStore) :=
  match fuel with
  | O => None
  | S fuel' =>
      match scanTopics s bucket (snd <$> map_to_list (tickets s)) true None with
      | None => None
      | Some (true, _) => Some (None, s)
      | Some (false, Some ref) =>
          rt ← topicRegTime s ref;
          Some (Some (ref, i64 (rt - now)), set_nextTicketCached (Some ref) s)
      | Some (false, None) =>
          scanBuckets fuel' now (i64 (bucket + 1))
            (set_lastBucketFetched bucket s)
      end
  end.

(** [nextRegisterableTicket]: the reference and the wait, or [None] for
    the [nil] result. *)
Definition nextRegisterableTicket (fuel : nat) (now : Z) (s : ticketStore)
  : option (option (ticketRef * Z) * ticketStore) :=
  match nextTicketCached s with
  | Some ref => rt ← topicRegTime s ref; Some (Some (ref, i64 (rt - now)), s)
  | None => scanBuckets fuel now (lastBucketFetched s) s
  end.

(** The position of the first reference to the ticket [p] in a list. *)
Fixpoint refIndex (p : loc) (refs : list ticketRef) : option nat :=
  match refs with
  | [] => None
  | bt :: refs' =>
      if bool_decide (bt.1 = p) then Some O else S <$> refIndex p refs'
  end.

(** The bucket map after a bucket has been cut down to [refs]: an empty
    bucket is deleted. *)
Definition putBucket (bucket : Z) (refs : list ticketRef)
  (tks : gmap Z (list ticketRef)) : gmap Z (list ticketRef) :=
  match refs with
  | [] => delete bucket tks
  | _ :: _ => <[bucket := refs]> tks
  end.

(** [ticketRegistered]. *)
Definition ticketRegistered (ref : ticketRef) (s : ticketStore)
  : option ticketStore :=
  tp ← refTopic s ref;
  match tickets s !! tp with
  | None => Some s
  | Some tks =>
      rt ← topicRegTime s ref;
      let bucket := bucketOf rt in
      let refs := default [] (tks !! bucket) in
      idx ← refIndex ref.1 refs;
      let tks' := putBucket bucket (take idx refs ++ drop (S idx) refs) tks in
      s1 ← dropRef ref (set_tickets (<[tp := tks']> (tickets s)) s);
      Some (set_nextTicketCached None s1)
  end.

(** [adjustMinRadius]; [tp] and [fp] are the prefixes of the lookup target
    and of the node found. *)
Definition adjustMinRadius (tp fp : Z) (s : ticketStore) : ticketStore :=
  let dist := Z.lxor tp fp in
  let mr := if dist <? maxRadius / 16 then u64 (dist * 16) else maxRadius in
  let mr := mr / minRadAverage in
  let ptr := Z.to_nat (minRadPtr s) in
  let sum := u64 (u64 (minRadSum s - default 0 (lastMinRads s !! ptr)) + mr) in
  let ptr' := if minRadPtr s + 1 =? minRadAverage then 0 else minRadPtr s + 1 in
  let cnt := u64 (minRadCnt s + 1) in
  let rad := if cnt <? minRadAverage then u64 (sum / cnt * minRadAverage)
             else sum in
  set_minRadius rad
    (set_minRadCnt cnt
       (set_minRadPtr ptr'
          (set_minRadSum sum
             (set_lastMinRads (<[ptr := mr]> (lastMinRads s)) s)))).

(** One round of the loop of [registerLookupDone] for the node [n] at
    position [i]. *)
Definition lookupNode (target : Z) (tp : Topic)
  (ping : Node -> list Byte.byte) (i : nat) (n : Node) (s : ticketStore)
  : option ticketStore :=
  if (i =? 0)%nat || (Z.lxor (shaPrefix n) target <? minRadius s)
  then match nodes s !! nptr n with
       | Some p =>
           t ← heap s !! p;
           match findIdx t tp with
           | Some idx => adjustWithTicket t idx false s
           | None => Some s
           end
       | None =>
           Some (set_nodeLastReq
                   (<[nptr n := {| pingHash := ping n; rq_topic := tp |}]>
                      (nodeLastReq s)) s)
       end
  else Some s.

Fixpoint lookupNodes (target : Z) (tp : Topic)
  (ping : Node -> list Byte.byte) (i : nat) (ns : list Node)
  (s : ticketStore) : option ticketStore :=
  match ns with
  | [] => Some s
  | n :: ns' =>
      s1 ← lookupNode target tp ping i n s;
      lookupNodes target tp ping (S i) ns' s1
  end.

(** [registerLookupDone] for the lookup of [target] (its prefix) for the
    topic [tp]. *)
Definition registerLookupDone (target : Z) (tp : Topic) (ns : list Node)
  (ping : Node -> list Byte.byte) (s : ticketStore) : option ticketStore :=
  let s1 := match ns with
            | n0 :: _ => adjustMinRadius target (shaPrefix n0) s
            | [] => s
            end in
  lookupNodes target tp ping 0 ns s1.

(** *** The states reached without lookups

    The states that [addTopic], [addTicket], [ticketRegistered] and
    [removeRegisterTopic] reach from the new store, with
    [nextRegisterableTicket] itself as a further step. *)
Inductive reachable : ticketStore -> Prop :=
| reach_new : reachable newTicketStore
| reach_addTopic s t prefix register :
    reachable s -> reachable (addTopic t prefix register s)
| reach_addTicket s now localTime rnd ping t s' :
    reachable s -> addTicket now localTime rnd ping t s = Some s' ->
    reachable s'
| reach_ticketRegistered s ref s' :
    reachable s -> ticketRegistered ref s = Some s' -> reachable s'
| reach_removeRegisterTopic s tp s' :
    reachable s -> removeRegisterTopic tp s = Some s' -> reachable s'
| reach_next s fuel now r s' :
    reachable s -> nextRegisterableTicket fuel now s = Some (r, s') ->
    reachable s'.

(** No request is pending, no ticket is queued and none is cached. *)
Definition nothingQueued (s : ticketStore) : Prop :=
  nodeLastReq s = ∅ /\ nextTicketCached s = None /\
  forall tp tks, tickets s !! tp = Some tks -> tks = ∅.

Lemma adjustTopic_queue t i tp ext only s s' :
  adjustTopic t i tp ext only s = Some s' ->
  nodeLastReq s' = nodeLastReq s /\ nextTicketCached s' = nextTicketCached s
  /\ tickets s' = tickets s.
Proof.
  unfold adjustTopic. intros H.
  destruct (radius s !! tp) as [rad|]; [|injection H as <-; auto].
  destruct (_ && _); [|injection H as <-; auto].
  destruct (adjust _ _ _ _ rad) as [rad'|]; [|discriminate].
  injection H as <-. auto.
Qed.

Lemma adjustConverging_queue t tps : forall i s s',
  adjustConverging t i tps s = Some s' ->
  nodeLastReq s' = nodeLastReq s /\ nextTicketCached s' = nextTicketCached s
  /\ tickets s' = tickets s.
Proof.
  induction tps as [|tp tps IH]; intros i s s' H; cbn [adjustConverging] in H.
  - injection H as <-. auto.
  - destruct (adjustTopic t i tp true true s) as [s1|] eqn:E; [|discriminate].
    cbn [mbind option_bind] in H.
    apply adjustTopic_queue in E as (E1 & E2 & E3).
    apply IH in H as (H1 & H2 & H3).
    rewrite H1, H2, H3. auto.
Qed.

Lemma scanTopics_none_queued s bucket tts : forall empty best,
  Forall (fun tks : gmap Z (list ticketRef) => tks = ∅) tts ->
  scanTopics s bucket tts empty best = Some (empty, best).
Proof.
  induction tts as [|tks tts IH]; intros empty best Hall; [reflexivity|].
  inversion Hall as [|? ? -> Hall']; subst. cbn [scanTopics].
  rewrite map_size_empty. cbn. apply IH. exact Hall'.
Qed.

Lemma nothingQueued_next fuel now s :
  nothingQueued s ->
  nextRegisterableTicket (S fuel) now s = Some (None, s).
Proof.
  intros (_ & Hc & Ht). unfold nextRegisterableTicket. rewrite Hc.
  cbn [scanBuckets].
  rewrite scanTopics_none_queued; [reflexivity|].
  apply Forall_forall. intros tks Hin.
  apply list_elem_of_fmap in Hin as ([tp tks'] & -> & Hin).
  apply elem_of_map_to_list in Hin. eapply Ht. exact Hin.
Qed.

Lemma nothingQueued_fuel fuel now s r s' :
  nothingQueued s ->
  nextRegisterableTicket fuel now s = Some (r, s') -> s' = s.
Proof.
  intros Hq H. destruct fuel as [|fuel].
  - destruct Hq as (_ & Hc & _). unfold nextRegisterableTicket in H.
    rewrite Hc in H. discriminate.
  - rewrite (nothingQueued_next fuel now s Hq) in H. congruence.
Qed.

Lemma reachable_nothingQueued s : reachable s -> nothingQueued s.
Proof.
  induction 1 as [|s t prefix register _ IH
                  |s now localTime rnd ping t s' _ IH Hstep
                  |s ref s' _ IH Hstep
                  |s tp s' _ IH Hstep
                  |s fuel now r s' _ IH Hstep].
  - repeat split. intros tp tks H. cbn in H.
    rewrite lookup_empty in H. discriminate.
  - destruct IH as (Hr & Hc & Ht). unfold addTopic.
    assert (Hrad : nothingQueued
              match radius s !! t with
              | Some _ => s
              | None => set_radius (<[t:=newTopicRadius t prefix]> (radius s)) s
              end).
    { destruct (radius s !! t); repeat split; auto. }
    destruct register; [|exact Hrad].
    destruct Hrad as (Hr' & Hc' & Ht').
    destruct (tickets _ !! t) eqn:E; [repeat split; auto|].
    repeat split; auto. cbn [tickets set_tickets].
    intros tp tks H. destruct (decide (t = tp)) as [->|Hne].
    + rewrite lookup_insert_eq in H. congruence.
    + rewrite lookup_insert_ne in H by exact Hne. eapply Ht'. exact H.
  - destruct IH as (Hr & Hc & Ht). unfold addTicket in Hstep.
    destruct (nodes s !! nptr (node t)); [injection Hstep as <-; repeat split; auto|].
    rewrite Hr, lookup_empty in Hstep.
    unfold adjustWithTicket in Hstep.
    apply adjustConverging_queue in Hstep as (H1 & H2 & H3).
    unfold nothingQueued. rewrite H1, H2, H3. auto.
  - destruct IH as (Hr & Hc & Ht). unfold ticketRegistered in Hstep.
    destruct (refTopic s ref) as [tp|]; [|discriminate].
    cbn [mbind option_bind] in Hstep.
    destruct (tickets s !! tp) as [tks|] eqn:E;
      [|injection Hstep as <-; repeat split; auto].
    rewrite (Ht tp tks E) in Hstep.
    destruct (topicRegTime s ref); [|discriminate].
    cbn [mbind option_bind] in Hstep.
    rewrite lookup_empty in Hstep. discriminate.
  - destruct IH as (Hr & Hc & Ht). unfold removeRegisterTopic in Hstep.
    assert (Hl : match tickets s !! tp with
                 | Some tks => (map_to_list tks).*2
                 | None => []
                 end = []).
    { destruct (tickets s !! tp) as [tks|] eqn:E; [|reflexivity].
      rewrite (Ht tp tks E), map_to_list_empty. reflexivity. }
    rewrite Hl in Hstep. cbn in Hstep. injection Hstep as <-.
    repeat split; auto. cbn [tickets set_tickets]. intros tp' tks H.
    apply lookup_delete_Some in H as [_ H]. eapply Ht. exact H.
  - rewrite (nothingQueued_fuel fuel now s r s' IH Hstep). exact IH.
Qed.



(** *** The states reached with lookups

    [registerLookupDone] records the requests that let [addTicket] queue
    tickets. The tickets handed to [addTicket] are those of
    [pongToTicket]: one registration time per topic, none before the local
    time of the ticket. *)

Definition refOk (s : ticketStore) (ref : ticketRef) : Prop :=
  (ref.1 < nextTicket s)%positive /\ is_Some (topicRegTime s ref).

(** Every bucket that is present holds at least one reference, lies at or
    after [lastBucketFetched], and its references can be read. *)
Definition queueOk (s : ticketStore) : Prop :=
  forall tp tks b refs,
    tickets s !! tp = Some tks -> tks !! b = Some refs ->
    refs <> [] /\ lastBucketFetched s <= b < 2 ^ 62 /\ Forall (refOk s) refs.

Definition queueInv (s : ticketStore) : Prop :=
  queueOk s /\
  (lastBucketFetched s = 0 ->
   forall tp tks, tickets s !! tp = Some tks -> tks = ∅) /\
  (forall ref, nextTicketCached s = Some ref -> refOk s ref) /\
  0 <= lastBucketFetched s.

(** Two stores with the same queue. *)
Definition sameQueue (s s' : ticketStore) : Prop :=
  tickets s' = tickets s /\
  lastBucketFetched s' = lastBucketFetched s /\
  nextTicketCached s' = nextTicketCached s /\
  nextTicket s' = nextTicket s /\
  forall ref, topicRegTime s' ref = topicRegTime s ref.

Lemma sameQueue_refl s : sameQueue s s.
Proof. repeat split. Qed.

Lemma sameQueue_trans s1 s2 s3 :
  sameQueue s1 s2 -> sameQueue s2 s3 -> sameQueue s1 s3.
Proof.
  intros (A1 & A2 & A3 & A4 & A5) (B1 & B2 & B3 & B4 & B5).
  split; [congruence|]. split; [congruence|]. split; [congruence|].
  split; [congruence|]. intros ref. rewrite B5. apply A5.
Qed.

Lemma sameQueue_refOk s s' ref : sameQueue s s' -> refOk s ref -> refOk s' ref.
Proof.
  intros (_ & _ & _ & Hn & Hr) [H1 H2]. split.
  - rewrite Hn. exact H1.
  - rewrite Hr. exact H2.
Qed.

Lemma sameQueue_inv s s' : sameQueue s s' -> queueInv s -> queueInv s'.
Proof.
  intros Hs (Hq & Hz & Hc & Hl).
  pose proof Hs as (Ht & Hb & Hcache & Hn & Hr).
  split; [|split; [|split]].
  - intros tp tks b refs H1 H2. rewrite Ht in H1.
    destruct (Hq tp tks b refs H1 H2) as (A & B & C).
    split; [exact A|]. split; [rewrite Hb; exact B|].
    eapply Forall_impl; [exact C|]. intros ref. apply sameQueue_refOk, Hs.
  - rewrite Hb, Ht. exact Hz.
  - rewrite Hcache. intros ref H. eapply sameQueue_refOk; [exact Hs|].
    apply Hc, H.
  - rewrite Hb. exact Hl.
Qed.

Lemma adjustTopic_sameQueue t i tp ext only s s' :
  adjustTopic t i tp ext only s = Some s' -> sameQueue s s'.
Proof.
  unfold adjustTopic. intros H.
  destruct (radius s !! tp) as [rad|];
    [|injection H as <-; apply sameQueue_refl].
  destruct (_ && _); [|injection H as <-; apply sameQueue_refl].
  destruct (adjust _ _ _ _ rad) as [rad'|]; [|discriminate].
  injection H as <-. repeat split.
Qed.

Lemma adjustConverging_sameQueue t tps : forall i s s',
  adjustConverging t i tps s = Some s' -> sameQueue s s'.
Proof.
  induction tps as [|tp tps IH]; intros i s s' H; cbn [adjustConverging] in H.
  - injection H as <-. apply sameQueue_refl.
  - destruct (adjustTopic t i tp true true s) as [s1|] eqn:E; [|discriminate].
    cbn [mbind option_bind] in H.
    eapply sameQueue_trans; [eapply adjustTopic_sameQueue; exact E|].
    eapply IH. exact H.
Qed.

Lemma adjustWithTicket_sameQueue t idx only s s' :
  adjustWithTicket t idx only s = Some s' -> sameQueue s s'.
Proof.
  unfold adjustWithTicket. destruct only.
  - apply adjustConverging_sameQueue.
  - destruct (topics t !! idx) as [tp|]; [|discriminate].
    cbn [mbind option_bind]. apply adjustTopic_sameQueue.
Qed.

Lemma lookupNode_sameQueue target tp ping i n s s' :
  lookupNode target tp ping i n s = Some s' -> sameQueue s s'.
Proof.
  unfold lookupNode. intros H.
  destruct (_ || _); [|injection H as <-; apply sameQueue_refl].
  destruct (nodes s !! nptr n) as [p|].
  - destruct (heap s !! p) as [t|]; [|discriminate].
    cbn [mbind option_bind] in H.
    destruct (findIdx t tp) as [idx|];
      [|injection H as <-; apply sameQueue_refl].
    eapply adjustWithTicket_sameQueue. exact H.
  - injection H as <-. repeat split.
Qed.

Lemma lookupNodes_sameQueue target tp ping ns : forall i s s',
  lookupNodes target tp ping i ns s = Some s' -> sameQueue s s'.
Proof.
  induction ns as [|n ns IH]; intros i s s' H; cbn [lookupNodes] in H.
  - injection H as <-. apply sameQueue_refl.
  - destruct (lookupNode target tp ping i n s) as [s1|] eqn:E; [|discriminate].
    cbn [mbind option_bind] in H.
    eapply sameQueue_trans; [eapply lookupNode_sameQueue; exact E|].
    eapply IH. exact H.
Qed.

Lemma registerLookupDone_sameQueue target tp ns ping s s' :
  registerLookupDone target tp ns ping s = Some s' -> sameQueue s s'.
Proof.
  unfold registerLookupDone. intros H.
  eapply sameQueue_trans; [|eapply lookupNodes_sameQueue; exact H].
  destruct ns; [apply sameQueue_refl|]. repeat split.
Qed.

Lemma dropRef_sameQueue ref s s' :
  dropRef ref s = Some s' -> sameQueue s s'.
Proof.
  unfold dropRef. intros H.
  destruct (heap s !! ref.1) as [t|] eqn:E; [|discriminate].
  cbn [mbind option_bind] in H.
  assert (Hr : forall (s0 : ticketStore) t0,
            heap s0 = <[ref.1 := t0]> (heap s) -> regTime t0 = regTime t ->
            forall r, topicRegTime s0 r = topicRegTime s r).
  { intros s0 t0 Hh Ht r. unfold topicRegTime. rewrite Hh.
    destruct (decide (ref.1 = r.1)) as [Heq|Hne].
    - rewrite <- Heq, lookup_insert_eq, E. cbn. rewrite Ht. reflexivity.
    - rewrite lookup_insert_ne by exact Hne. reflexivity. }
  destruct (_ =? 0); injection H as <-;
    (split; [reflexivity|]; split; [reflexivity|]; split; [reflexivity|];
     split; [reflexivity|]; intros r; eapply Hr; reflexivity).
Qed.

Lemma dropRefs_sameQueue refs : forall s s',
  dropRefs refs s = Some s' -> sameQueue s s'.
Proof.
  induction refs as [|ref refs IH]; intros s s' H; cbn [dropRefs] in H.
  - injection H as <-. apply sameQueue_refl.
  - destruct (dropRef ref s) as [s1|] eqn:E; [|discriminate].
    cbn [mbind option_bind] in H.
    eapply sameQueue_trans; [eapply dropRef_sameQueue; exact E|].
    eapply IH. exact H.
Qed.

(** Replacing the queue by one that holds, per topic, buckets of the old
    one, whole or cut down but not empty, keeps the invariant. *)
Definition shrunk (old new : gmap Topic (gmap Z (list ticketRef))) : Prop :=
  forall tp tks', new !! tp = Some tks' ->
    tks' = ∅ \/
    exists tks, old !! tp = Some tks /\
      forall b refs', tks' !! b = Some refs' ->
        exists refs, tks !! b = Some refs /\
          (refs' = refs \/ (refs' <> [] /\ forall x, x ∈ refs' -> x ∈ refs)).

Lemma queueInv_shrunk s new :
  queueInv s -> shrunk (tickets s) new -> queueInv (set_tickets new s).
Proof.
  intros (Hq & Hz & Hc & Hl) Hs.
  split; [|split; [|split]]; cbn [tickets lastBucketFetched
                                  nextTicketCached set_tickets].
  - intros tp tks' b refs' H1 H2.
    destruct (Hs tp tks' H1) as [->|(tks & Hold & Hb)].
    { rewrite lookup_empty in H2. discriminate. }
    destruct (Hb b refs' H2) as (refs & Hrefs & Hsub).
    destruct (Hq tp tks b refs Hold Hrefs) as (Hne & Hrange & Hok).
    destruct Hsub as [->|[Hne' Hsub]]; [auto|].
    split; [exact Hne'|]. split; [exact Hrange|].
    apply Forall_forall. intros x Hx.
    rewrite Forall_forall in Hok. apply (Hok x (Hsub x Hx)).
  - intros Hzero tp tks' H1.
    destruct (Hs tp tks' H1) as [->|(tks & Hold & Hb)]; [reflexivity|].
    apply map_empty. intros b.
    destruct (tks' !! b) as [refs'|] eqn:E; [|reflexivity].
    destruct (Hb b refs' E) as (refs & Hrefs & _).
    rewrite (Hz Hzero tp tks Hold), lookup_empty in Hrefs. discriminate.
  - exact Hc.
  - exact Hl.
Qed.

Lemma shrunk_same (old : gmap Topic (gmap Z (list ticketRef))) tp
  (tks : gmap Z (list ticketRef)) :
  old !! tp = Some tks ->
  exists tks0, old !! tp = Some tks0 /\
    forall b refs', tks !! b = Some refs' ->
      exists refs, tks0 !! b = Some refs /\
        (refs' = refs \/ (refs' <> [] /\ forall x, x ∈ refs' -> x ∈ refs)).
Proof. intros H. exists tks. split; [exact H|]. eauto. Qed.

Lemma shrunk_insert_empty (old : gmap Topic (gmap Z (list ticketRef))) tp :
  shrunk old (<[tp := ∅]> old).
Proof.
  intros tp' tks' H. destruct (decide (tp = tp')) as [->|Hne].
  - rewrite lookup_insert_eq in H. left. congruence.
  - rewrite lookup_insert_ne in H by exact Hne. right.
    apply shrunk_same. exact H.
Qed.

Lemma shrunk_delete (old : gmap Topic (gmap Z (list ticketRef))) tp :
  shrunk old (delete tp old).
Proof.
  intros tp' tks' H. apply lookup_delete_Some in H as [_ H].
  right. apply shrunk_same. exact H.
Qed.

Lemma addTopic_inv t prefix register s :
  queueInv s -> queueInv (addTopic t prefix register s).
Proof.
  intros Hinv. unfold addTopic.
  assert (H1 : queueInv
            match radius s !! t with
            | Some _ => s
            | None => set_radius (<[t:=newTopicRadius t prefix]> (radius s)) s
            end).
  { destruct (radius s !! t); [exact Hinv|].
    eapply sameQueue_inv; [|exact Hinv]. repeat split. }
  destruct register; [|exact H1].
  destruct (tickets _ !! t); [exact H1|].
  apply queueInv_shrunk; [exact H1|]. apply shrunk_insert_empty.
Qed.

Lemma removeRegisterTopic_inv tp s s' :
  queueInv s -> removeRegisterTopic tp s = Some s' -> queueInv s'.
Proof.
  intros Hinv H. unfold removeRegisterTopic in H.
  destruct (dropRefs _ s) as [s1|] eqn:E; [|discriminate].
  cbn [mbind option_bind] in H. injection H as <-.
  apply queueInv_shrunk; [|apply shrunk_delete].
  eapply sameQueue_inv; [|exact Hinv].
  eapply dropRefs_sameQueue. exact E.
Qed.

Lemma queueInv_uncache s :
  queueInv s -> queueInv (set_nextTicketCached None s).
Proof.
  intros (Hq & Hz & Hc & Hl). split; [|split; [|split]].
  - exact Hq.
  - exact Hz.
  - intros ref H. discriminate.
  - exact Hl.
Qed.

Lemma shrunk_putBucket (old : gmap Topic (gmap Z (list ticketRef))) tp
  (tks : gmap Z (list ticketRef)) bucket refs' :
  old !! tp = Some tks ->
  (forall x, x ∈ refs' -> x ∈ default [] (tks !! bucket)) ->
  shrunk old (<[tp := putBucket bucket refs' tks]> old).
Proof.
  intros Hold Hsub tp' tks' H.
  destruct (decide (tp = tp')) as [<-|Hne];
    [|rewrite lookup_insert_ne in H by exact Hne;
      right; apply shrunk_same; exact H].
  rewrite lookup_insert_eq in H. injection H as <-. right.
  exists tks. split; [exact Hold|]. intros b refs0 Hb.
  unfold putBucket in Hb. destruct refs' as [|x refs'].
  - apply lookup_delete_Some in Hb as [_ Hb]. eauto.
  - destruct (decide (bucket = b)) as [<-|Hneb].
    + rewrite lookup_insert_eq in Hb. injection Hb as <-.
      destruct (tks !! bucket) as [refs|] eqn:E.
      * exists refs. split; [reflexivity|]. right.
        split; [discriminate|]. exact Hsub.
      * exfalso. cbn in Hsub.
        specialize (Hsub x ltac:(apply elem_of_cons; auto)).
        inversion Hsub.
    + rewrite lookup_insert_ne in Hb by exact Hneb. eauto.
Qed.

Lemma ticketRegistered_inv ref s s' :
  queueInv s -> ticketRegistered ref s = Some s' -> queueInv s'.
Proof.
  intros Hinv H. unfold ticketRegistered in H.
  destruct (refTopic s ref) as [tp|]; [|discriminate].
  cbn [mbind option_bind] in H.
  destruct (tickets s !! tp) as [tks|] eqn:Etp;
    [|injection H as <-; exact Hinv].
  destruct (topicRegTime s ref) as [rt|]; [|discriminate].
  cbn [mbind option_bind] in H.
  destruct (refIndex _ _) as [idx|]; [|discriminate].
  cbn [mbind option_bind] in H.
  destruct (dropRef ref _) as [s1|] eqn:E; [|discriminate].
  cbn [mbind option_bind] in H. injection H as <-.
  apply queueInv_uncache.
  eapply sameQueue_inv; [eapply dropRef_sameQueue; exact E|].
  apply queueInv_shrunk; [exact Hinv|].
  apply shrunk_putBucket; [exact Etp|].
  intros x Hx. apply elem_of_app in Hx as [Hx|Hx].
  - eapply subseteq_take. exact Hx.
  - eapply subseteq_drop. exact Hx.
Qed.

(** **** The scan of [nextRegisterableTicket] *)

Definition bestOk (s : ticketStore) (best : option ticketRef) : Prop :=
  forall b, best = Some b -> refOk s b.

Lemma earliest_ok s refs : forall best,
  Forall (refOk s) refs -> bestOk s best ->
  exists r, earliest s refs best = Some r /\ bestOk s r /\
            (r = None -> best = None /\ refs = []).
Proof.
  induction refs as [|ref refs IH]; intros best Hrefs Hbest.
  - exists best. auto.
  - inversion Hrefs as [|? ? Href Hrefs']; subst. cbn [earliest].
    destruct best as [b|].
    + pose proof Href as [_ [rt Hrt]]. rewrite Hrt. cbn [mbind option_bind].
      destruct (Hbest b eq_refl) as [Hb1 [bt Hbt]]. rewrite Hbt.
      cbn [mbind option_bind].
      destruct (IH (if rt <? bt then Some ref else Some b) Hrefs')
        as (r & Hr & Hok & Hnone).
      { intros x Hx. destruct (rt <? bt); injection Hx as <-.
        - exact Href.
        - split; eauto. }
      exists r. split; [exact Hr|]. split; [exact Hok|].
      intros ->. destruct (Hnone eq_refl) as [Hx _].
      destruct (rt <? bt); discriminate.
    + destruct (IH (Some ref) Hrefs') as (r & Hr & Hok & Hnone).
      { intros x [= <-]. exact Href. }
      exists r. split; [exact Hr|]. split; [exact Hok|].
      intros ->. destruct (Hnone eq_refl) as [Hx _]. discriminate.
Qed.

Lemma scanTopics_ok s bucket tts : forall empty best,
  (forall tks, tks ∈ tts -> forall b refs, tks !! b = Some refs ->
                 refs <> [] /\ Forall (refOk s) refs) ->
  bestOk s best ->
  exists e r,
    scanTopics s bucket tts empty best = Some (e, r) /\ bestOk s r /\
    (r = None -> best = None /\ forall tks, tks ∈ tts -> tks !! bucket = None)
    /\ (e = true -> empty = true).
Proof.
  induction tts as [|tks tts IH]; intros empty best Hall Hbest.
  - exists empty, best. split; [reflexivity|]. split; [exact Hbest|].
    split; [|auto]. intros ->. split; [reflexivity|].
    intros tks H. inversion H.
  - cbn [scanTopics].
    assert (Hall' : forall tks0, tks0 ∈ tts -> forall b refs,
              tks0 !! b = Some refs -> refs <> [] /\ Forall (refOk s) refs).
    { intros tks0 H. apply Hall. right. exact H. }
    destruct (size tks =? 0)%nat eqn:Esz.
    + apply Nat.eqb_eq, map_size_empty_iff in Esz. subst tks.
      destruct (IH empty best Hall' Hbest) as (e & r & Hr & Hok & Hnone & He).
      exists e, r. split; [exact Hr|]. split; [exact Hok|].
      split; [|exact He]. intros Hrn. destruct (Hnone Hrn) as [Hb Hn].
      split; [exact Hb|]. intros tks0 H.
      apply elem_of_cons in H as [->|H]; [apply lookup_empty|auto].
    + assert (Hrefs : Forall (refOk s) (default [] (tks !! bucket))).
      { destruct (tks !! bucket) as [refs|] eqn:E; [|constructor].
        apply (Hall tks ltac:(left) bucket refs E). }
      destruct (earliest_ok s _ best Hrefs Hbest) as (r1 & Hr1 & Hok1 & Hnone1).
      rewrite Hr1. cbn [mbind option_bind].
      destruct (IH false r1 Hall' Hok1) as (e & r & Hr & Hok & Hnone & He).
      exists e, r. split; [exact Hr|]. split; [exact Hok|].
      split; [|intros H; apply He in H; discriminate].
      intros Hrn. destruct (Hnone Hrn) as [Hb Hn].
      destruct (Hnone1 Hb) as [Hbest0 Hnil].
      split; [exact Hbest0|]. intros tks0 H.
      apply elem_of_cons in H as [->|H]; [|auto].
      destruct (tks !! bucket) as [refs|] eqn:E; [|reflexivity].
      cbn in Hnil. subst refs.
      destruct (Hall tks ltac:(left) bucket [] E) as [Hne _]. congruence.
Qed.

Definition noneQueued (s : ticketStore) : Prop :=
  forall tp tks, tickets s !! tp = Some tks -> tks = ∅.

(** What the scan needs when it stands at [bucket]. *)
Definition scanInv (s : ticketStore) (bucket : Z) : Prop :=
  (forall tp tks b refs,
     tickets s !! tp = Some tks -> tks !! b = Some refs ->
     refs <> [] /\ bucket <= b < 2 ^ 62 /\ Forall (refOk s) refs) /\
  0 <= lastBucketFetched s <= bucket /\
  (lastBucketFetched s = 0 -> noneQueued s) /\
  nextTicketCached s = None.

Lemma scanInv_queueInv s bucket : scanInv s bucket -> queueInv s.
Proof.
  intros (Hq & Hl & Hz & Hc). split; [|split; [|split]].
  - intros tp tks b refs H1 H2. destruct (Hq tp tks b refs H1 H2) as (A & B & C).
    split; [exact A|]. split; [lia|exact C].
  - exact Hz.
  - intros ref H. rewrite Hc in H. discriminate.
  - lia.
Qed.

Lemma i64_small z : - 2 ^ 63 <= z < 2 ^ 63 -> i64 z = z.
Proof. intros H. unfold i64. rewrite Z.mod_small by lia. lia. Qed.

Lemma scanBuckets_returns now n : forall s bucket,
  scanInv s bucket ->
  (noneQueued s \/
   exists tp tks b refs, tickets s !! tp = Some tks /\ tks !! b = Some refs /\
                         b <= bucket + Z.of_nat n) ->
  exists r s', scanBuckets (S n) now bucket s = Some (r, s') /\ queueInv s'.
Proof.
  induction n as [|n IH]; intros s bucket Hinv Hsome;
    pose proof Hinv as (Hq & Hl & Hz & Hc); cbn [scanBuckets].
  all: assert (Hall : forall tks, tks ∈ (map_to_list (tickets s)).*2 ->
         forall b refs, tks !! b = Some refs ->
                        refs <> [] /\ Forall (refOk s) refs)
    by (intros tks Hin b refs Hb;
        apply list_elem_of_fmap in Hin as ([tp tks'] & -> & Hin);
        apply elem_of_map_to_list in Hin;
        destruct (Hq tp tks' b refs Hin Hb) as (A & _ & C); auto).
  all: destruct (scanTopics_ok s bucket _ true None Hall
                   ltac:(intros b; discriminate))
         as (e & r & Hr & Hok & Hnone & _); rewrite Hr.
  all: destruct e; [exists None, s; split;
                      [reflexivity|eapply scanInv_queueInv; exact Hinv]|].
  all: destruct r as [ref|];
    [destruct (Hok ref eq_refl) as [Hlt [rt Hrt]]; rewrite Hrt;
     cbn [mbind option_bind]; eexists _, _; split; [reflexivity|];
     pose proof (scanInv_queueInv s bucket Hinv) as (A & B & _ & D);
     split; [exact A|]; split; [exact B|]; split; [|exact D];
     intros x [= <-]; split; [exact Hlt|eauto]|].
  all: destruct (Hnone eq_refl) as [_ Hempty].
  all: assert (Hnot : ~ noneQueued s)
    by (intros Hnq;
        rewrite scanTopics_none_queued in Hr;
        [discriminate|];
        apply Forall_forall; intros tks Hin;
        apply list_elem_of_fmap in Hin as ([tp tks'] & -> & Hin);
        apply elem_of_map_to_list in Hin; eapply Hnq; exact Hin).
  all: destruct Hsome as [Hnq|(tp & tks & b & refs & Ht & Hb & Hle)];
    [contradiction|].
  all: assert (Hbucket : tks !! bucket = None)
    by (apply Hempty, list_elem_of_fmap; exists (tp, tks);
        split; [reflexivity|]; apply elem_of_map_to_list; exact Ht).
  all: destruct (Hq tp tks b refs Ht Hb) as (_ & Hrange & _).
  all: assert (Hneq : b <> bucket) by (intros ->; congruence).
  - lia.
  - assert (Hlbf : lastBucketFetched s <> 0)
      by (intros H0; apply Hnot, Hz, H0).
    rewrite i64_small by lia.
    apply IH.
    + split; [|split; [|split]];
        cbn [tickets lastBucketFetched nextTicketCached
             set_lastBucketFetched].
      * intros tp' tks' b' refs' H1 H2.
        destruct (Hq tp' tks' b' refs' H1 H2) as (A & B & C).
        split; [exact A|]. split; [|exact C].
        assert (b' <> bucket).
        { intros ->.
          assert (tks' !! bucket = None)
            by (apply Hempty, list_elem_of_fmap; exists (tp', tks');
                split; [reflexivity|]; apply elem_of_map_to_list; exact H1).
          congruence. }
        lia.
      * lia.
      * intros H0. lia.
      * exact Hc.
    + right. exists tp, tks, b, refs. split; [exact Ht|]. split; [exact Hb|].
      lia.
Qed.

(** Under the invariant [nextRegisterableTicket] returns, and at most one
    round per bucket between [lastBucketFetched] and a queued ticket is
    needed. *)
Lemma queueInv_returns now s :
  queueInv s ->
  exists fuel r s',
    nextRegisterableTicket fuel now s = Some (r, s') /\ queueInv s'.
Proof.
  intros Hinv. pose proof Hinv as (Hq & Hz & Hc & Hl).
  unfold nextRegisterableTicket.
  destruct (nextTicketCached s) as [ref|] eqn:Ecache.
  { destruct (Hc ref eq_refl) as [_ [rt Hrt]]. exists 0%nat.
    rewrite Hrt. cbn [mbind option_bind]. eauto. }
  assert (Hscan : scanInv s (lastBucketFetched s)).
  { split; [exact Hq|]. split; [lia|]. split; [exact Hz|exact Ecache]. }
  destruct (decide (map_Forall (fun _ (tks : gmap Z (list ticketRef)) => tks = ∅)
                               (tickets s))) as [Hall|Hsome].
  - destruct (scanBuckets_returns now 0 s _ Hscan) as (r & s' & Hr & Hinv').
    { left. intros tp tks H. apply (Hall tp tks H). }
    exists 1%nat, r, s'. auto.
  - apply map_not_Forall in Hsome as (tp & tks & Ht & Hne); [|apply _].
    apply map_choose in Hne as (b & refs & Hb).
    destruct (Hq tp tks b refs Ht Hb) as (_ & Hrange & _).
    destruct (scanBuckets_returns now (Z.to_nat (b - lastBucketFetched s)) s _
                Hscan) as (r & s' & Hr & Hinv').
    { right. exists tp, tks, b, refs. split; [exact Ht|]. split; [exact Hb|].
      lia. }
    eauto.
Qed.

Lemma next_inv fuel now s r s' :
  queueInv s -> nextRegisterableTicket fuel now s = Some (r, s') ->
  queueInv s'.
Proof.
  intros Hinv H. pose proof Hinv as (Hq & Hz & Hc & Hl).
  unfold nextRegisterableTicket in H.
  destruct (nextTicketCached s) as [ref|] eqn:Ecache.
  { destruct (topicRegTime s ref); [|discriminate].
    cbn in H. injection H as <- <-. exact Hinv. }
  assert (Hgen : forall fuel s bucket r s',
            scanInv s bucket ->
            scanBuckets fuel now bucket s = Some (r, s') -> queueInv s').
  { clear. induction fuel as [|fuel IH]; intros s bucket r s' Hinv H;
      [discriminate|].
    pose proof Hinv as (Hq & Hl & Hz & Hc). cbn [scanBuckets] in H.
    assert (Hall : forall tks, tks ∈ (map_to_list (tickets s)).*2 ->
           forall b refs, tks !! b = Some refs ->
                          refs <> [] /\ Forall (refOk s) refs).
    { intros tks Hin b refs Hb.
      apply list_elem_of_fmap in Hin as ([tp tks'] & -> & Hin).
      apply elem_of_map_to_list in Hin.
      destruct (Hq tp tks' b refs Hin Hb) as (A & _ & C). auto. }
    destruct (scanTopics_ok s bucket _ true None Hall
                ltac:(intros b; discriminate))
      as (e & r0 & Hr & Hok & Hnone & _).
    rewrite Hr in H. destruct e.
    { injection H as <- <-. eapply scanInv_queueInv. exact Hinv. }
    destruct r0 as [ref|].
    { destruct (Hok ref eq_refl) as [Hlt [rt Hrt]]. rewrite Hrt in H.
      cbn in H. injection H as <- <-.
      pose proof (scanInv_queueInv s bucket Hinv) as (A & B & _ & D).
      split; [exact A|]. split; [exact B|]. split; [|exact D].
      intros x [= <-]. split; [exact Hlt|eauto]. }
    destruct (Hnone eq_refl) as [_ Hempty].
    assert (Hnot : ~ noneQueued s).
    { intros Hnq. rewrite scanTopics_none_queued in Hr; [discriminate|].
      apply Forall_forall. intros tks Hin.
      apply list_elem_of_fmap in Hin as ([tp tks'] & -> & Hin).
      apply elem_of_map_to_list in Hin. eapply Hnq. exact Hin. }
    assert (Hlbf : lastBucketFetched s <> 0)
      by (intros H0; apply Hnot, Hz, H0).
    destruct (decide (bucket + 1 < 2 ^ 62)) as [Hsmall|Hbig].
    - rewrite i64_small in H by lia. eapply IH; [|exact H].
      split; [|split; [|split]];
        cbn [tickets lastBucketFetched nextTicketCached
             set_lastBucketFetched].
      + intros tp' tks' b' refs' H1 H2.
        destruct (Hq tp' tks' b' refs' H1 H2) as (A & B & C).
        split; [exact A|]. split; [|exact C].
        assert (b' <> bucket).
        { intros ->.
          assert (tks' !! bucket = None)
            by (apply Hempty, list_elem_of_fmap; exists (tp', tks');
                split; [reflexivity|]; apply elem_of_map_to_list; exact H1).
          congruence. }
        lia.
      + lia.
      + intros H0. lia.
      + exact Hc.
    - exfalso. apply Hnot. intros tp tks Ht. apply map_empty. intros b.
      destruct (tks !! b) as [refs|] eqn:Hb; [|reflexivity].
      destruct (Hq tp tks b refs Ht Hb) as (_ & Hrange & _).
      assert (b = bucket) by lia. subst b.
      assert (tks !! bucket = None)
        by (apply Hempty, list_elem_of_fmap; exists (tp, tks);
            split; [reflexivity|]; apply elem_of_map_to_list; exact Ht).
      congruence. }
  eapply Hgen; [|exact H].
  split; [exact Hq|]. split; [lia|]. split; [exact Hz|exact Ecache].
Qed.

(** **** [addTicket] with the tickets of [pongToTicket] *)

(** The local time lies past the first minute of the clock, and no topic of
    the ticket can be registered before the local time. *)
Definition wellTimed (localTime : Z) (t : ticket) : Prop :=
  minute <= localTime /\
  Forall (fun rt => localTime <= rt < 2 ^ 63) (regTime t).

Lemma bucketOf_bounds localTime rt :
  minute <= localTime -> localTime <= rt < 2 ^ 63 ->
  1 <= bucketOf localTime <= bucketOf rt /\ bucketOf rt < 2 ^ 62.
Proof.
  unfold bucketOf, ticketTimeBucketLen, minute, second. intros H1 H2.
  assert (Hone : Z.quot (60 * 1000000000) (60 * 1000000000) = 1)
    by reflexivity.
  split; [split|].
  - rewrite <- Hone. apply Z.quot_le_mono; lia.
  - apply Z.quot_le_mono; lia.
  - apply Z.quot_lt_upper_bound; lia.
Qed.

(** The state of the second loop of [addTicket] for the ticket at [p]. *)
Definition keeping (lo : Z) (p : loc) (t : ticket) (s : ticketStore) : Prop :=
  queueOk s /\ lastBucketFetched s = lo /\
  (forall ref, nextTicketCached s = Some ref -> refOk s ref) /\
  (p < nextTicket s)%positive /\
  exists t', heap s !! p = Some t' /\ regTime t' = regTime t.

Lemma keepTicket_keeping now localTime rnd lo p t i tp s s' :
  (forall j rt, regTime t !! j = Some rt -> lo <= bucketOf rt < 2 ^ 62) ->
  keeping lo p t s ->
  keepTicket now localTime rnd p i tp s = Some s' ->
  keeping lo p t s'.
Proof.
  intros Hrt Hk H. pose proof Hk as (Hq & Hlo & Hc & Hp & t' & Ht' & Hreg).
  unfold keepTicket in H. rewrite Ht' in H. cbn [mbind option_bind] in H.
  destruct (radius s !! tp) as [rad|]; [|injection H as <-; exact Hk].
  destruct (negb _); [injection H as <-; exact Hk|].
  destruct (needMoreTickets now tp s) as [more|]; [|discriminate].
  cbn [mbind option_bind] in H.
  destruct (tickets s !! tp) as [tks|] eqn:Etp; [|injection H as <-; exact Hk].
  destruct (negb _); [injection H as <-; exact Hk|].
  destruct (regTime t' !! i) as [rt|] eqn:Ert; [|discriminate].
  cbn [mbind option_bind] in H.
  destruct (PrimFloat.ltb _ _); [|injection H as <-; exact Hk].
  unfold addRef in H. cbn [heap set_tickets] in H. rewrite Ht' in H.
  cbn [mbind option_bind] in H. injection H as <-.
  set (t'' := {| topics := topics t'; regTime := regTime t';
                 serial := serial t'; issueTime := issueTime t';
                 node := node t'; refCnt := i64 (refCnt t' + 1);
                 pong := pong t' |}).
  set (s' := set_heap _ _).
  assert (Hsame : forall r, topicRegTime s' r = topicRegTime s r).
  { intros r. unfold topicRegTime, s'. cbn [heap set_heap set_tickets].
    destruct (decide (p = r.1)) as [Heq|Hne].
    - rewrite <- Heq, lookup_insert_eq, Ht'. reflexivity.
    - rewrite lookup_insert_ne by exact Hne. reflexivity. }
  assert (Hok : forall r, refOk s r -> refOk s' r).
  { intros r [A B]. split; [exact A|]. rewrite Hsame. exact B. }
  assert (Hnew : refOk s' (p, i)).
  { split; [exact Hp|]. rewrite Hsame. unfold topicRegTime. cbn.
    rewrite Ht'. cbn. rewrite Ert. eauto. }
  rewrite Hreg in Ert. pose proof (Hrt i rt Ert) as Hb.
  split; [|split; [exact Hlo|split; [|split; [exact Hp|]]]].
  - intros tp0 tks0 b refs H1 H2. unfold s' in H1.
    cbn [tickets set_heap set_tickets] in H1.
    destruct (decide (tp = tp0)) as [<-|Hne].
    + rewrite lookup_insert_eq in H1. injection H1 as <-.
      destruct (decide (bucketOf rt = b)) as [<-|Hneb].
      * rewrite lookup_insert_eq in H2. injection H2 as <-.
        split; [intros Hnil; apply app_eq_nil in Hnil as [_ ?]; discriminate|].
        split; [unfold s'; cbn [lastBucketFetched set_heap set_tickets]; lia|].
        apply Forall_app. split; [|constructor; [exact Hnew|constructor]].
        destruct (tks !! bucketOf rt) as [old|] eqn:Eold; [|constructor].
        destruct (Hq tp tks _ old Etp Eold) as (_ & _ & C).
        eapply Forall_impl; [exact C|exact Hok].
      * rewrite lookup_insert_ne in H2 by exact Hneb.
        destruct (Hq tp tks b refs Etp H2) as (A & B & C).
        split; [exact A|]. split; [exact B|].
        eapply Forall_impl; [exact C|exact Hok].
    + rewrite lookup_insert_ne in H1 by exact Hne.
      destruct (Hq tp0 tks0 b refs H1 H2) as (A & B & C).
      split; [exact A|]. split; [exact B|].
      eapply Forall_impl; [exact C|exact Hok].
  - intros ref Href. apply Hok, Hc, Href.
  - exists t''. split; [apply lookup_insert_eq|exact Hreg].
Qed.

Lemma keepTickets_keeping now localTime rnd lo p t tps : forall i s s',
  (forall j rt, regTime t !! j = Some rt -> lo <= bucketOf rt < 2 ^ 62) ->
  keeping lo p t s ->
  keepTickets now localTime rnd p i tps s = Some s' ->
  keeping lo p t s'.
Proof.
  induction tps as [|tp tps IH]; intros i s s' Hrt Hk H;
    cbn [keepTickets] in H.
  - injection H as <-. exact Hk.
  - destruct (keepTicket now localTime (rnd i) p i tp s) as [s1|] eqn:E;
      [|discriminate].
    cbn [mbind option_bind] in H.
    eapply IH; [exact Hrt| |exact H].
    eapply keepTicket_keeping; [exact Hrt|exact Hk|exact E].
Qed.

Lemma keeping_queueInv lo p t s : 1 <= lo -> keeping lo p t s -> queueInv s.
Proof.
  intros Hlo (Hq & Hl & Hc & _). split; [exact Hq|].
  split; [intros H0; lia|]. split; [exact Hc|lia].
Qed.

Lemma addTicket_inv now localTime rnd ping t s s' :
  wellTimed localTime t -> queueInv s ->
  addTicket now localTime rnd ping t s = Some s' -> queueInv s'.
Proof.
  intros [Hmin Htimes] Hinv H. unfold addTicket in H.
  destruct (nodes s !! nptr (node t)); [injection H as <-; exact Hinv|].
  destruct (match nodeLastReq s !! nptr (node t) with
            | Some lastReq =>
                if bytesEqual ping (pingHash lastReq) then Some lastReq
                else None
            | None => None
            end) as [lastReq|].
  2:{ eapply sameQueue_inv; [|exact Hinv].
      eapply adjustWithTicket_sameQueue. exact H. }
  destruct (findIdx t (rq_topic lastReq)) as [topicIdx|];
    [|injection H as <-; exact Hinv].
  destruct (adjustWithTicket t topicIdx false s) as [s1|] eqn:E1;
    [|discriminate].
  cbn [mbind option_bind] in H.
  assert (Hinv1 : queueInv s1)
    by (eapply sameQueue_inv; [eapply adjustWithTicket_sameQueue; exact E1|
                               exact Hinv]).
  clear Hinv E1 s. destruct Hinv1 as (Hq & Hz & Hc & Hl).
  set (s2 := if _ || _ then _ else s1) in H.
  set (lo := lastBucketFetched s2).
  assert (Hlo : 1 <= lo <= bucketOf localTime).
  { assert (1 <= bucketOf localTime).
    { destruct (regTime t) as [|rt ?] eqn:E.
      - unfold bucketOf, ticketTimeBucketLen, minute, second in *.
        assert (Hone : Z.quot (60 * 1000000000) (60 * 1000000000) = 1)
          by reflexivity.
        rewrite <- Hone. apply Z.quot_le_mono; lia.
      - inversion Htimes; subst.
        apply (bucketOf_bounds localTime rt Hmin). assumption. }
    unfold lo, s2.
    destruct (lastBucketFetched s1 =? 0) eqn:E0; cbn [orb].
    - cbn. lia.
    - apply Z.eqb_neq in E0.
      destruct (bucketOf localTime <? lastBucketFetched s1) eqn:Elt.
      + cbn. lia.
      + apply Z.ltb_ge in Elt. lia. }
  assert (Hq2 : forall tp tks b refs,
            tickets s1 !! tp = Some tks -> tks !! b = Some refs ->
            refs <> [] /\ lo <= b < 2 ^ 62 /\ Forall (refOk s1) refs).
  { intros tp tks b refs H1 H2.
    destruct (Hq tp tks b refs H1 H2) as (A & B & C).
    split; [exact A|]. split; [|exact C]. unfold lo, s2.
    destruct (lastBucketFetched s1 =? 0) eqn:E0; cbn [orb].
    - apply Z.eqb_eq in E0. rewrite (Hz E0 tp tks H1), lookup_empty in H2.
      discriminate.
    - destruct (bucketOf localTime <? lastBucketFetched s1) eqn:Elt.
      + apply Z.ltb_lt in Elt. cbn. lia.
      + lia. }
  assert (Hframe : tickets s2 = tickets s1 /\ heap s2 = heap s1 /\
                   nextTicket s2 = nextTicket s1 /\
                   nextTicketCached s2 = nextTicketCached s1)
    by (unfold s2; destruct (_ || _); repeat split).
  destruct Hframe as (F1 & F2 & F3 & F4).
  set (p := nextTicket s2) in H.
  set (s3 := set_nextTicket (Pos.succ p) _) in H.
  destruct (keepTickets now localTime rnd p 0 (topics t) s3) as [s4|] eqn:E4;
    [|discriminate].
  cbn [mbind option_bind] in H.
  assert (Hold : forall r, refOk s1 r -> refOk s3 r).
  { intros r [A [rt B]]. split.
    - unfold s3. cbn. fold p. rewrite <- F3 in A. fold p in A. lia.
    - exists rt. unfold topicRegTime, s3 in *. cbn [heap set_heap set_nextTicket].
      rewrite lookup_insert_ne, F2; [exact B|].
      rewrite <- F3 in A. fold p in A. lia. }
  assert (Hk3 : keeping lo p t s3).
  { split; [|split; [reflexivity|split; [|split]]].
    - intros tp tks b refs H1 H2. unfold s3 in H1.
      cbn [tickets set_heap set_nextTicket] in H1. rewrite F1 in H1.
      destruct (Hq2 tp tks b refs H1 H2) as (A & B & C).
      split; [exact A|]. split; [exact B|].
      eapply Forall_impl; [exact C|exact Hold].
    - intros ref Href. apply Hold, Hc. unfold s3 in Href. cbn in Href.
      rewrite <- F4. exact Href.
    - unfold s3. cbn. lia.
    - exists t. split; [|reflexivity]. unfold s3. cbn.
      apply lookup_insert_eq. }
  assert (Hk4 : keeping lo p t s4).
  { eapply keepTickets_keeping; [|exact Hk3|exact E4].
    intros j rt Hj. rewrite Forall_forall in Htimes.
    assert (Hin : rt ∈ regTime t) by (eapply list_elem_of_lookup_2; exact Hj).
    destruct (bucketOf_bounds localTime rt Hmin (Htimes rt Hin)). lia. }
  pose proof (keeping_queueInv lo p t s4 ltac:(lia) Hk4) as Hinv4.
  destruct (heap s4 !! p) as [t'|]; [|discriminate].
  cbn [mbind option_bind] in H.
  destruct (0 <? refCnt t'); injection H as <-; [|exact Hinv4].
  eapply sameQueue_inv; [|apply queueInv_uncache; exact Hinv4].
  repeat split.
Qed.

(** The states reached when lookups are allowed too. *)
Inductive reachableWithLookups : ticketStore -> Prop :=
| reachL_new : reachableWithLookups newTicketStore
| reachL_addTopic s t prefix register :
    reachableWithLookups s ->
    reachableWithLookups (addTopic t prefix register s)
| reachL_lookupDone s target tp ns ping s' :
    reachableWithLookups s ->
    registerLookupDone target tp ns ping s = Some s' ->
    reachableWithLookups s'
| reachL_addTicket s now localTime rnd ping t s' :
    reachableWithLookups s -> wellTimed localTime t ->
    addTicket now localTime rnd ping t s = Some s' ->
    reachableWithLookups s'
| reachL_ticketRegistered s ref s' :
    reachableWithLookups s -> ticketRegistered ref s = Some s' ->
    reachableWithLookups s'
| reachL_removeRegisterTopic s tp s' :
    reachableWithLookups s -> removeRegisterTopic tp s = Some s' ->
    reachableWithLookups s'
| reachL_next s fuel now r s' :
    reachableWithLookups s ->
    nextRegisterableTicket fuel now s = Some (r, s') ->
    reachableWithLookups s'.

Lemma newTicketStore_inv : queueInv newTicketStore.
Proof.
  split; [|split; [|split]].
  - intros tp tks b refs H. cbn in H. rewrite lookup_empty in H. discriminate.
  - intros _ tp tks H. cbn in H. rewrite lookup_empty in H. discriminate.
  - intros ref H. discriminate.
  - cbn. lia.
Qed.

Lemma reachableWithLookups_inv s : reachableWithLookups s -> queueInv s.
Proof.
  induction 1 as [|s t prefix register _ IH
                  |s target tp ns ping s' _ IH Hstep
                  |s now localTime rnd ping t s' _ IH Htimed Hstep
                  |s ref s' _ IH Hstep
                  |s tp s' _ IH Hstep
                  |s fuel now r s' _ IH Hstep].
  - exact newTicketStore_inv.
  - apply addTopic_inv. exact IH.
  - eapply sameQueue_inv; [|exact IH].
    eapply registerLookupDone_sameQueue. exact Hstep.
  - eapply addTicket_inv; eassumption.
  - eapply ticketRegistered_inv; eassumption.
  - eapply removeRegisterTopic_inv; eassumption.
  - eapply next_inv; eassumption.
Qed.

(** With lookups tickets do get queued. As long as the clock readings
    handed to [addTicket] lie past the first minute and the tickets are
    those of [pongToTicket], every queued reference lies in a bucket at or
    after [lastBucketFetched], and [nextRegisterableTicket] returns after
    finitely many rounds of its loop. *)
Theorem nextRegisterableTicket_returns s now :
  reachableWithLookups s ->
  (forall tp tks bucket refs,
     tickets s !! tp = Some tks -> tks !! bucket = Some refs ->
     lastBucketFetched s <= bucket) /\
  exists fuel r s', nextRegisterableTicket fuel now s = Some (r, s').
Proof.
  intros Hr. pose proof (reachableWithLookups_inv s Hr) as Hinv.
  split.
  - intros tp tks b refs H1 H2. destruct Hinv as (Hq & _).
    destruct (Hq tp tks b refs H1 H2) as (_ & Hb & _). lia.
  - destruct (queueInv_returns now s Hinv) as (fuel & r & s' & H & _). eauto.
Qed.

(** *** A clock in its first minute

    The condition on the local time in [wellTimed] is needed. The run
    below converges the radius of [foo] with 393 tickets that nobody asked
    for, looks up two nodes, queues a ticket of the first node at second 30,
    in bucket 0, and receives a ticket of the second node at second 300.
    [addTicket] takes the value 0 of [lastBucketFetched] for "not set" and
    raises it to bucket 5, past the queued ticket. *)

Definition nodeIn (k : positive) : Node := {| nptr := k; shaPrefix := 5 |}.
Definition nodeOut (k : positive) : Node :=
  {| nptr := k; shaPrefix := maxRadius |}.

Definition ticketOf (n : Node) (localTime wait : Z) : ticket :=
  {| topics := ["foo"]; regTime := [localTime + wait * second]; serial := 1;
     issueTime := localTime; node := n; refCnt := 0; pong := [] |}.

Definition unasked (n : Node) (s : ticketStore) : option ticketStore :=
  addTicket 0 0 (fun _ => 1%float) [] (ticketOf n 0 1200) s.

Fixpoint converge (k : nat) (s : ticketStore) : option ticketStore :=
  match k with
  | O => Some s
  | S k' =>
      s1 ← unasked (nodeIn 1) s; s2 ← unasked (nodeIn 1) s1;
      s3 ← unasked (nodeOut 1) s2; converge k' s3
  end.

Definition firstMinute : option ticketStore :=
  s ← converge 131 (addTopic "foo" 0 true newTicketStore);
  s ← registerLookupDone 0 "foo" [nodeIn 1] (fun _ => []) s;
  s ← registerLookupDone 0 "foo" [nodeIn 2] (fun _ => []) s;
  s ← addTicket (30 * second) (30 * second) (fun _ => 1%float) []
        (ticketOf (nodeIn 1) (30 * second) 10) s;
  addTicket (300 * second) (300 * second) (fun _ => 1%float) []
    (ticketOf (nodeIn 2) (300 * second) 100000) s.

Lemma firstMinute_scan :
  (s ← firstMinute;
   Some ((fun p => (p.1, map_to_list p.2)) <$> map_to_list (tickets s),
         lastBucketFetched s))
  = Some ([("foo", [(0, [(1%positive, 0%nat)])])], 5) /\
  (s ← firstMinute; nextRegisterableTicket 1000 (300 * second) s) = None.
Proof. vm_compute. split; reflexivity. Qed.

End Store.
